(** * Inverted pendulum on a cart: dynamics model and controller assembly

    A shallow embedding of [ip.py].

    The Python program computes on IEEE doubles.  This development reads
    every float as the real number it stands for and every float operation
    as the exact real operation, so rounding is not modelled.  Where numpy
    would produce a non-finite value (a division by zero), the embedded
    method has no result.  The angle normalisation and the two methods that
    use nothing else are embedded a second time on binary64 floats
    ([Pendulum64]), where an edge of the rounding shows. *)

From Stdlib Require Import Reals Lra Lia ZArith.
From Stdlib Require PrimFloat FloatOps SpecFloat Uint63.
From stdpp Require Import base option list strings gmap.

(** * Part I: the program *)

(** ** Computations on a store that may fail *)

Definition comp (S A : Type) : Type := S -> option (A * S).

Definition ret {S A : Type} (a : A) : comp S A := fun s => Some (a, s).

Definition bind {S A B : Type} (c : comp S A) (k : A -> comp S B) : comp S B :=
  fun s => match c s with
           | Some (a, s') => k a s'
           | None => None
           end.

Notation "'let*' x ':=' c 'in' k" := (bind c (fun x => k))
  (at level 10, x name, c at level 100, k at level 200).
Notation "c ';;' k" := (bind c (fun _ => k))
  (at level 100, k at level 200, right associativity).

(** A list comprehension whose element expression may fail. *)
Fixpoint mapM {S A B : Type} (f : A -> comp S B) (l : list A) : comp S (list B) :=
  match l with
  | [] => ret []
  | a :: l' => let* b := f a in let* bs := mapM f l' in ret (b :: bs)
  end.

(** ** Pendulum dynamics model: class [InvertedPendulum] *)

Module Pendulum.

Local Open Scope R_scope.

(** Python's [%] on floats: the remainder of the floored quotient, so that
    the result carries the sign of the divisor. *)
Definition py_mod (x y : R) : R := x - IZR (Zfloor (x / y)) * y.

(** The attributes of an [InvertedPendulum] object. *)
Record InvertedPendulum : Type := mkPendulum {
  self_l : R;   (* pendulum length *)
  self_m : R;   (* pendulum mass *)
  self_mc : R;  (* cart mass *)
  self_dt : R;  (* time delta *)
  self_O : R;   (* angular position *)
  self_w : R;   (* angular velocity *)
  self_x : R;   (* cart position *)
  self_v : R    (* cart speed *)
}.

(** A method runs on the object, may replace it, and returns a value.  It has
    no result ([None]) when a float operation leaves the real numbers. *)
Definition method (A : Type) : Type := comp InvertedPendulum A.

(** Attribute read [self.f] and the four attribute writes of the class. *)
Definition read {A : Type} (f : InvertedPendulum -> A) : method A :=
  fun self => Some (f self, self).

Definition write_O (r : R) : method unit := fun self =>
  Some (tt, mkPendulum (self_l self) (self_m self) (self_mc self) (self_dt self)
                       r (self_w self) (self_x self) (self_v self)).
Definition write_w (r : R) : method unit := fun self =>
  Some (tt, mkPendulum (self_l self) (self_m self) (self_mc self) (self_dt self)
                       (self_O self) r (self_x self) (self_v self)).
Definition write_x (r : R) : method unit := fun self =>
  Some (tt, mkPendulum (self_l self) (self_m self) (self_mc self) (self_dt self)
                       (self_O self) (self_w self) r (self_v self)).
Definition write_v (r : R) : method unit := fun self =>
  Some (tt, mkPendulum (self_l self) (self_m self) (self_mc self) (self_dt self)
                       (self_O self) (self_w self) (self_x self) r).

(** Float division.  On a zero divisor numpy yields [inf] or [nan]; in
    [apply] that value always reaches [self.w], so the step has no real
    result. *)
Definition np_div (a b : R) : method R := fun self =>
  if Req_EM_T b 0 then None else Some (a / b, self).

(** [__init__]: the four parameters as given, zero state. *)
Definition init (l m mc dt : R) : InvertedPendulum :=
  mkPendulum l m mc dt 0 0 0 0.

(** The default arguments of [__init__]. *)
Definition init_default : InvertedPendulum := init 0.5 0.1 0.5 0.01.

(** [__pv]: principal value of angle [x]. *)
Definition pv (x : R) : R := py_mod (x + PI) (2 * PI) - PI.

(** [set_state] *)
Definition set_state (O w x v : R) : method unit :=
  write_O (pv O) ;;
  write_w w ;;
  write_x x ;;
  write_v v.

(** [get_state] *)
Definition get_state : method (R * R * R * R) :=
  let* O := read self_O in
  let* w := read self_w in
  let* x := read self_x in
  let* v := read self_v in
  ret (O, w, x, v).

(** [apply] *)
Definition apply (F : R) : method (R * R * R * R) :=
  let g := 9.80665 in
  let* l := read self_l in
  let* O := read self_O in
  let* w := read self_w in
  let* x := read self_x in
  let* v := read self_v in
  let so := sin O in
  let co := cos O in
  let* m := read self_m in
  let* mc := read self_mc in
  let* dt := read self_dt in
  let M := m + mc in
  let* t1 := np_div ((- F - m * l * w * w * so) * co) M in
  let* t2 := np_div (m * co * co) M in
  let* q := np_div (g * so + t1) (l * (4 / 3 - t2)) in
  let* t3 := np_div (m * l * (w * w * so - q * co)) M in
  let a := F - t3 in
  write_w (w + q * dt) ;;
  (let* w' := read self_w in write_O (pv (O + w' * dt))) ;;
  write_v (v + a * dt) ;;
  (let* v' := read self_v in write_x (x + v' * dt)) ;;
  get_state.

(** Running a method for its object only. *)
Definition exec {A : Type} (c : method A) (self : InvertedPendulum)
  : option InvertedPendulum :=
  match c self with Some (_, self') => Some self' | None => None end.

(** ** One step, as the design document words it *)

Definition g : R := 9.80665.

(** Angular acceleration [q]. *)
Definition angular_acceleration (l m mc O w F : R) : R :=
  let M := m + mc in
  (g * sin O + (- F - m * l * w ^ 2 * sin O) * cos O / M)
  / (l * (4 / 3 - m * cos O ^ 2 / M)).

(** Linear acceleration [a]. *)
Definition linear_acceleration (l m mc O w F : R) : R :=
  let M := m + mc in
  let q := angular_acceleration l m mc O w F in
  F - (m * l * (w ^ 2 * sin O - q * cos O)) / M.

(** Semi-implicit Euler: each velocity is updated first and the updated
    velocity advances the matching position. *)
Definition euler_step (self : InvertedPendulum) (F : R) : R * R * R * R :=
  let l := self_l self in
  let m := self_m self in
  let mc := self_mc self in
  let dt := self_dt self in
  let q := angular_acceleration l m mc (self_O self) (self_w self) F in
  let a := linear_acceleration l m mc (self_O self) (self_w self) F in
  let w_new := self_w self + q * dt in
  let O_new := pv (self_O self + w_new * dt) in
  let v_new := self_v self + a * dt in
  let x_new := self_x self + v_new * dt in
  (O_new, w_new, x_new, v_new).

(** The object whose state attributes are the given tuple, stored as is. *)
Definition with_state (self : InvertedPendulum) (s : R * R * R * R)
  : InvertedPendulum :=
  let '(th, w, x, v) := s in
  mkPendulum (self_l self) (self_m self) (self_mc self) (self_dt self) th w x v.

(** The two divisors of [apply] are non-zero. *)
Definition nondegenerate (self : InvertedPendulum) : Prop :=
  self_m self + self_mc self <> 0 /\
  self_l self * (4 / 3 - self_m self * cos (self_O self) ^ 2
                         / (self_m self + self_mc self)) <> 0.

(** ** Reachable objects and repeated steps *)


(** [n] calls of [apply(F)] in a row, then a read of the state. *)
Fixpoint apply_repeatedly (F : R) (n : nat) : method (R * R * R * R) :=
  match n with
  | 0%nat => get_state
  | S k => apply F ;; apply_repeatedly F k
  end.

Definition negate_state (s : R * R * R * R) : R * R * R * R :=
  let '(th, w, x, v) := s in (- th, - w, - x, - v).

(** Parameters of a physical pendulum: a length that is not zero, a
    pendulum mass that is not negative and a positive cart mass. *)
Definition physical (self : InvertedPendulum) : Prop :=
  self_l self <> 0 /\ 0 <= self_m self /\ 0 < self_mc self.

(** The four parameters of an object. *)
Definition parameters (self : InvertedPendulum) : R * R * R * R :=
  (self_l self, self_m self, self_mc self, self_dt self).

End Pendulum.

(** ** The angle normalisation on binary64 floats *)

Module Pendulum64.

Import PrimFloat FloatOps SpecFloat.

Local Open Scope float_scope.

(** C's [fmod] on doubles: the remainder of the truncated quotient, which is
    exact and carries the sign of [x]. *)
Definition fmod (x y : float) : float :=
  match Prim2SF x, Prim2SF y with
  | S754_nan, _ | _, S754_nan => nan
  | S754_infinity _, _ => nan
  | _, S754_zero _ => nan
  | _, S754_infinity _ => x
  | S754_zero _, _ => x
  | S754_finite sx mx ex, S754_finite _ my ey =>
      let e := Z.min ex ey in
      let X := (Z.pos mx * 2 ^ (ex - e))%Z in
      let Y := (Z.pos my * 2 ^ (ey - e))%Z in
      let r := Z.ldexp (of_uint63 (Uint63.of_Z (X mod Y))) e in
      if sx then - r else r
  end.

(** Python's [%] on floats: [fmod], moved by one divisor when its sign
    differs from the divisor's, and a zero of the divisor's sign when it is
    zero; a zero divisor raises. *)
Definition py_mod (vx wx : float) : option float :=
  if wx =? 0 then None
  else
    let m := fmod vx wx in
    Some (if m =? 0 then (if wx <? 0 then - 0 else 0)
          else if Bool.eqb (wx <? 0) (m <? 0) then m else m + wx).

(** numpy's [pi], the double nearest to the number pi. *)
Definition pi : float := 0x1.921fb54442d18p+1.

(** The state attributes of an [InvertedPendulum] object; the parameters
    play no part in the two methods below. *)
Record InvertedPendulum : Type := mkPendulum {
  self_O : float;
  self_w : float;
  self_x : float;
  self_v : float
}.

(** [__init__]: zero state. *)
Definition init : InvertedPendulum := mkPendulum 0 0 0 0.

(** [__pv] *)
Definition pv (x : float) : option float :=
  match py_mod (x + pi) (2 * pi) with
  | Some m => Some (m - pi)
  | None => None
  end.

(** [set_state] *)
Definition set_state (O w x v : float) (self : InvertedPendulum)
  : option InvertedPendulum :=
  match pv O with
  | Some O' => Some (mkPendulum O' w x v)
  | None => None
  end.

(** [get_state] *)
Definition get_state (self : InvertedPendulum) : float * float * float * float :=
  (self_O self, self_w self, self_x self, self_v self).

(** [set_state] called on the tuple that [get_state] returns. *)
Definition get_then_set (self : InvertedPendulum) : option InvertedPendulum :=
  let '(th, w, x, v) := get_state self in set_state th w x v self.

End Pendulum64.

(** ** Controller assembly: [create_controller] *)

Module Controller.

(** An [Adjective] object: its identity and the membership function it
    wraps. *)
Record Adjective (MF : Type) : Type := mkAdjective {
  adj_id : nat;
  adj_set : MF
}.
Arguments mkAdjective {MF} _ _.
Arguments adj_id {MF} _.
Arguments adj_set {MF} _.

(** The fuzzification method handed to every input variable. *)
Inductive Fuzzify : Type := Plain.

(** [InputVariable(fuzzify=...)] and [OutputVariable(defuzzify=...)]. *)
Inductive VariableClass (DF : Type) : Type :=
| InputVariable (fuzzify : Fuzzify)
| OutputVariable (defuzzify : DF).
Arguments InputVariable {DF} _.
Arguments OutputVariable {DF} _.

(** A linguistic variable object with its [adjectives] dictionary. *)
Record LinguisticVariable (MF DF : Type) : Type := mkVariable {
  var_class : VariableClass DF;
  adjectives : gmap string (Adjective MF)
}.
Arguments mkVariable {MF DF} _ _.
Arguments var_class {MF DF} _.
Arguments adjectives {MF DF} _.

(** The three arguments of one [add_table] call. *)
Record RuleTable (MF : Type) : Type := mkTable {
  tbl_rows : list (Adjective MF);
  tbl_cols : list (Adjective MF);
  tbl_cells : list (list (Adjective MF))
}.
Arguments mkTable {MF} _ _ _.
Arguments tbl_rows {MF} _.
Arguments tbl_cols {MF} _.
Arguments tbl_cells {MF} _.

(** Modelled from the spec: class [PendulumController] of module [control],
    which is not among the sources.  The engine holds the named variables
    (the dictionary [variables], whose values are references to variable
    objects) and the rule tables registered with it, in registration order. *)
Record PendulumController (MF : Type) : Type := mkController {
  variables : gmap string nat;
  tables : list (RuleTable MF)
}.
Arguments mkController {MF} _ _.
Arguments variables {MF} _.
Arguments tables {MF} _.

(** The objects [create_controller] allocates and mutates: the variable
    objects by reference, the counter naming the adjective objects, and the
    controller under construction. *)
Record Store (MF DF : Type) : Type := mkStore {
  heap : gmap nat (LinguisticVariable MF DF);
  next_loc : nat;
  next_adj : nat;
  controller : PendulumController MF
}.
Arguments mkStore {MF DF} _ _ _ _.
Arguments heap {MF DF} _.
Arguments next_loc {MF DF} _.
Arguments next_adj {MF DF} _.
Arguments controller {MF DF} _.

(** The category names of the five variables and the two tables of force
    names, as [create_controller] spells them. *)
Definition O_names : list string :=
  ["Ovbn"; "Obn"; "Osn"; "Oz"; "Osp"; "Obp"; "Ovbp"].
Definition w_names : list string := ["wbn"; "wsn"; "wz"; "wsp"; "wbp"].
Definition F_names : list string :=
  ["Fvvbn"; "Fvbn"; "Fbn"; "Fsn"; "Fz"; "Fsp"; "Fbp"; "Fvbp"; "Fvvbp"].
Definition x_names : list string := ["xn"; "xz"; "xp"].
Definition v_names : list string := ["vn"; "vz"; "vp"].

(** First binding of the local [table_names]: angle by angular velocity. *)
Definition table_names : list (list string) :=
  [ ["Fvvbn"; "Fvvbn"; "Fvbn"; "Fbn"; "Fsn"];
    ["Fvvbn"; "Fvbn"; "Fbn"; "Fsn"; "Fz"];
    ["Fvbn"; "Fbn"; "Fsn"; "Fz"; "Fsp"];
    ["Fbn"; "Fsn"; "Fz"; "Fsp"; "Fbp"];
    ["Fsn"; "Fz"; "Fsp"; "Fbp"; "Fvbp"];
    ["Fz"; "Fsp"; "Fbp"; "Fvbp"; "Fvvbp"];
    ["Fsp"; "Fbp"; "Fvbp"; "Fvvbp"; "Fvvbp"] ].

(** Second binding of the local [table_names]: cart position by cart
    speed. *)
Definition table_names_2 : list (list string) :=
  [ ["Fbp"; "Fbp"; "Fz"];
    ["Fbp"; "Fz"; "Fbn"];
    ["Fz"; "Fbn"; "Fbn"] ].

Section Assembly.

(** Membership-function descriptors and the defuzzification method are those
    of the engine. *)
Context {MF DF : Type}.

(** [flat_saw] of module [mf], which is not among the sources: the
    partitioner, called with an interval and a count. *)
Variable flat_saw : R * R -> nat -> list MF.

(** [controller.defuzzy()]. *)
Variable defuzzy : DF.

Abbreviation store := (Store MF DF).

(** [PendulumController()]: no variable, no table. *)
Definition new_controller : comp store unit := fun st =>
  Some (tt, mkStore (heap st) (next_loc st) (next_adj st) (mkController ∅ [])).

(** [InputVariable(...)] or [OutputVariable(...)]: a fresh variable object
    without adjectives. *)
Definition new_variable (c : VariableClass DF) : comp store nat := fun st =>
  Some (next_loc st,
        mkStore (<[next_loc st := mkVariable c ∅]> (heap st))
                (S (next_loc st)) (next_adj st) (controller st)).

(** [controller.variables[name] = var] *)
Definition set_variable (name : string) (var : nat) : comp store unit := fun st =>
  Some (tt, mkStore (heap st) (next_loc st) (next_adj st)
                    (mkController (<[name := var]> (variables (controller st)))
                                  (tables (controller st)))).

(** [Adjective(mf)]: a fresh adjective object. *)
Definition new_adjective (f : MF) : comp store (Adjective MF) := fun st =>
  Some (mkAdjective (next_adj st) f,
        mkStore (heap st) (next_loc st) (S (next_adj st)) (controller st)).

(** [{name: Adjective(mf) for name, mf in pairs}]: the pairs are taken in
    order and a later pair overwrites an earlier one of the same name. *)
Fixpoint dict_comprehension (pairs : list (string * MF))
    (d : gmap string (Adjective MF)) : comp store (gmap string (Adjective MF)) :=
  match pairs with
  | [] => ret d
  | (name, f) :: rest =>
      let* a := new_adjective f in dict_comprehension rest (<[name := a]> d)
  end.

(** [var.adjectives = d], on the object [var] refers to. *)
Definition set_adjectives (var : nat) (d : gmap string (Adjective MF))
  : comp store unit := fun st =>
  match heap st !! var with
  | Some V =>
      Some (tt, mkStore (<[var := mkVariable (var_class V) d]> (heap st))
                        (next_loc st) (next_adj st) (controller st))
  | None => None
  end.

(** [controller.variables[var].adjectives[name]]; a missing key raises. *)
Definition lookup_adjective (var name : string) : comp store (Adjective MF) :=
  fun st =>
  match variables (controller st) !! var with
  | Some loc =>
      match heap st !! loc with
      | Some V =>
          match adjectives V !! name with
          | Some a => Some (a, st)
          | None => None
          end
      | None => None
      end
  | None => None
  end.

(** Modelled from the spec: method [add_table] of [PendulumController],
    which is not among the sources.  It registers a grid that has one row of
    cells per row category and one cell per column category in each row, and
    fails on any other grid. *)
Definition add_table (rows cols : list (Adjective MF))
    (cells : list (list (Adjective MF))) : comp store unit := fun st =>
  if bool_decide (length cells = length rows)
     && forallb (fun row => bool_decide (length row = length cols)) cells
  then Some (tt, mkStore (heap st) (next_loc st) (next_adj st)
                         (mkController (variables (controller st))
                                       (tables (controller st)
                                        ++ [mkTable rows cols cells])))
  else None.

(** [create_controller] *)
Definition create_controller : comp store (PendulumController MF) :=
  new_controller ;;

  let* O := new_variable (InputVariable Plain) in
  set_variable "O" O ;;
  let* d := dict_comprehension
              (zip O_names (flat_saw (-3 * PI / 8, 3 * PI / 8)%R 7)) ∅ in
  set_adjectives O d ;;

  let* w := new_variable (InputVariable Plain) in
  set_variable "w" w ;;
  let* d := dict_comprehension
              (zip w_names (flat_saw (-3 * PI, 3 * PI)%R 5)) ∅ in
  set_adjectives w d ;;

  let* F := new_variable (OutputVariable defuzzy) in
  set_variable "F" F ;;
  let* d := dict_comprehension (zip F_names (flat_saw (-100, 100)%R 9)) ∅ in
  set_adjectives F d ;;

  let* rows := mapM (lookup_adjective "O") O_names in
  let* cols := mapM (lookup_adjective "w") w_names in
  let* cells := mapM (mapM (lookup_adjective "F")) table_names in
  add_table rows cols cells ;;

  let* x := new_variable (InputVariable Plain) in
  set_variable "x" x ;;
  let* d := dict_comprehension (zip x_names (flat_saw (-10, 10)%R 3)) ∅ in
  set_adjectives x d ;;

  let* v := new_variable (InputVariable Plain) in
  set_variable "v" v ;;
  let* d := dict_comprehension (zip v_names (flat_saw (-6, 6)%R 3)) ∅ in
  set_adjectives v d ;;

  (* the second table is bound and the call registering it is a comment *)
  let table_names := table_names_2 in

  fun st => Some (controller st, st).

(** The store before the module is loaded, and the module-level
    [PC = create_controller()]. *)
Definition empty_store : store := mkStore ∅ 0 0 (mkController ∅ []).

Definition PC : option (PendulumController MF * store) :=
  create_controller empty_store.

(** ** Reading the assembled data *)

(** [controller.variables[var]], dereferenced. *)
Definition variable_of (st : store) (var : string)
  : option (LinguisticVariable MF DF) :=
  loc ← variables (controller st) !! var; heap st !! loc.

(** [controller.variables[var].adjectives[name]], read off a store. *)
Definition adjective_of (st : store) (var name : string)
  : option (Adjective MF) :=
  V ← variable_of st var; adjectives V !! name.

(** The category names under which a variable holds the adjective object
    [a]. *)
Definition category_names (V : LinguisticVariable MF DF) (a : Adjective MF)
  : list string :=
  (filter (λ p, adj_id p.2 = adj_id a) (map_to_list (adjectives V))).*1.

(** The force category a table assigns to the angle category [o] and the
    angular-velocity category [w]: the row of [o]'s adjective, the column of
    [w]'s adjective, and the one name of the adjective in that cell. *)
Definition rule (st : store) (t : RuleTable MF) (o w : string) : option string :=
  VO ← variable_of st "O";
  Vw ← variable_of st "w";
  VF ← variable_of st "F";
  ao ← adjectives VO !! o;
  aw ← adjectives Vw !! w;
  i ← fst <$> list_find (λ a, adj_id a = adj_id ao) (tbl_rows t);
  j ← fst <$> list_find (λ a, adj_id a = adj_id aw) (tbl_cols t);
  row ← tbl_cells t !! i;
  cell ← row !! j;
  match category_names VF cell with
  | [f] => Some f
  | _ => None
  end.

(** The number of rules the registered tables hold: one per cell. *)
Definition rule_count (c : PendulumController MF) : nat :=
  sum_list (map (λ t, length (concat (tbl_cells t))) (tables c)).

(** The variable [var] is of class [cls] and its dictionary binds exactly
    the [n] names, the [i]-th name to an adjective object of its own that
    wraps the [i]-th membership function. *)
Definition bound_in_order (st : store) (var : string) (cls : VariableClass DF)
    (names : list string) (mfs : list MF) (n : nat) : Prop :=
  exists V : LinguisticVariable MF DF,
    variable_of st var = Some V /\
    var_class V = cls /\
    length names = n /\ length mfs = n /\ size (adjectives V) = n /\
    forall (i : nat) (name : string),
      names !! i = Some name ->
      exists a : Adjective MF,
        adjectives V !! name = Some a /\
        mfs !! i = Some (adj_set a) /\
        category_names V a = [name].

(** The tables registered with the controller of a store. *)
Definition registered (st : store) : list (RuleTable MF) :=
  tables (controller st).

(** The dictionary a comprehension builds when the next fresh adjective
    identity is [base]: the pairs are entered in order, each with the next
    identity. *)
Fixpoint fill (base : nat) (pairs : list (string * MF))
    (d : gmap string (Adjective MF)) : gmap string (Adjective MF) :=
  match pairs with
  | [] => d
  | (name, f) :: rest => fill (S base) rest (<[name := mkAdjective base f]> d)
  end.

(** [[d[name] for name in names]] on a dictionary: the values in order, or
    nothing when a name is missing. *)
Fixpoint lookups (d : gmap string (Adjective MF)) (names : list string)
  : option (list (Adjective MF)) :=
  match names with
  | [] => Some []
  | name :: rest =>
      match d !! name with
      | Some a =>
          match lookups d rest with
          | Some l => Some (a :: l)
          | None => None
          end
      | None => None
      end
  end.

(** The same for a grid of names, row by row. *)
Fixpoint grid_lookups (d : gmap string (Adjective MF)) (grid : list (list string))
  : option (list (list (Adjective MF))) :=
  match grid with
  | [] => Some []
  | row :: rest =>
      match lookups d row with
      | Some l =>
          match grid_lookups d rest with
          | Some ls => Some (l :: ls)
          | None => None
          end
      | None => None
      end
  end.

(** The variable [var] binds the [i]-th of [names] to an adjective wrapping
    the [i]-th of [mfs] when there is one, and leaves the name unbound when
    there is none. *)
Definition binds_prefix (st : store) (var : string) (names : list string)
    (mfs : list MF) : Prop :=
  forall (i : nat) (name : string),
    names !! i = Some name ->
    adj_set <$> adjective_of st var name = mfs !! i.

End Assembly.

(** ** A concrete partitioner *)

(** Modelled from the spec: [flat_saw] of module [mf], which is not among the
    sources.  Given an interval and a count [n] it returns [n] descriptors in
    low-to-high order; a descriptor here records the interval, the count and
    the position of the part. *)
Definition flat_saw_model (rng : R * R) (n : nat) : list (R * R * nat * nat) :=
  map (λ i, (rng, n, i)) (seq 0 n).

End Controller.

(** * Part II: the properties *)

(** ** Computations *)

Lemma bind_Some {S A B : Type} (c : comp S A) (k : A -> comp S B) (s : S)
    (r : B * S) :
  bind c k s = Some r <-> exists a s', c s = Some (a, s') /\ k a s' = Some r.
Proof.
  unfold bind. split.
  - destruct (c s) as [[a s'] |]; [| discriminate]. intros H. now exists a, s'.
  - intros (a & s' & -> & H). exact H.
Qed.

Lemma mapM_length {S A B : Type} (f : A -> comp S B) (l : list A) :
  forall (s s' : S) (bs : list B),
    mapM f l s = Some (bs, s') -> length bs = length l.
Proof.
  induction l as [| a l IH]; intros s s' bs H; simpl in H.
  - injection H as <- _. reflexivity.
  - apply bind_Some in H as (b & s1 & _ & H).
    apply bind_Some in H as (bs' & s2 & Hl & H).
    injection H as <- _. simpl. f_equal. eapply IH; eassumption.
Qed.

(** What every call of [f] leaves unchanged, the comprehension leaves
    unchanged. *)
Lemma mapM_preserves {S A B X : Type} (g : S -> X) (f : A -> comp S B) :
  (forall a s b s', f a s = Some (b, s') -> g s' = g s) ->
  forall (l : list A) (s s' : S) (bs : list B),
    mapM f l s = Some (bs, s') -> g s' = g s.
Proof.
  intros Hf. induction l as [| a l IH]; intros s s' bs H; simpl in H.
  - injection H as _ <-. reflexivity.
  - apply bind_Some in H as (b & s1 & Hb & H).
    apply bind_Some in H as (bs' & s2 & Hl & H).
    injection H as _ <-. rewrite (IH _ _ _ Hl). eapply Hf; eassumption.
Qed.

(** ** Properties of the dynamics model *)

Module PendulumFacts.

Import Pendulum.

Local Open Scope R_scope.

(** ** Facts about [py_mod] and [pv] *)

Lemma two_PI_pos : 0 < 2 * PI.
Proof. pose proof PI_RGT_0. lra. Qed.


Lemma py_mod_small (x y : R) : 0 <= x < y -> py_mod x y = x.
Proof.
  intros [Hlo Hhi]. unfold py_mod.
  assert (Hy : 0 < y) by lra.
  assert (Hf : Zfloor (x / y) = 0%Z).
  { apply Zfloor_eq. simpl. split.
    - apply Rmult_le_pos; [lra|]. apply Rlt_le, Rinv_0_lt_compat; lra.
    - apply (Rmult_lt_reg_r y); [lra|].
      replace (x / y * y) with x by (field; lra). lra. }
  rewrite Hf. simpl. lra.
Qed.



Lemma pv_fixes_range (x : R) : - PI <= x < PI -> pv x = x.
Proof.
  intros H. unfold pv. rewrite py_mod_small; lra.
Qed.

Lemma pv_0 : pv 0 = 0.
Proof. apply pv_fixes_range. pose proof PI_RGT_0. lra. Qed.

Lemma pv_neg_PI : pv (- PI) = - PI.
Proof. apply pv_fixes_range. pose proof PI_RGT_0. lra. Qed.

Lemma pv_shift (x : R) (k : Z) : pv (x + IZR k * (2 * PI)) = pv x.
Proof.
  unfold pv, py_mod.
  assert (Hq : (x + IZR k * (2 * PI) + PI) / (2 * PI)
               = (x + PI) / (2 * PI) + IZR k).
  { pose proof two_PI_pos. field. lra. }
  rewrite Hq.
  assert (Hf : Zfloor ((x + PI) / (2 * PI) + IZR k)
               = (Zfloor ((x + PI) / (2 * PI)) + k)%Z).
  { apply Zfloor_eq. rewrite plus_IZR.
    pose proof (Zfloor_bound ((x + PI) / (2 * PI))). lra. }
  rewrite Hf, plus_IZR. lra.
Qed.

Lemma pv_PI : pv PI = - PI.
Proof.
  replace PI with (- PI + IZR 1 * (2 * PI)) at 1 by lra.
  rewrite pv_shift. apply pv_neg_PI.
Qed.

(** ** One step of [apply] *)

Lemma np_div_ok (a b : R) (self : InvertedPendulum) :
  b <> 0 -> np_div a b self = Some (a / b, self).
Proof. intros Hb. unfold np_div. destruct (Req_EM_T b 0); [contradiction | reflexivity]. Qed.

Lemma np_div_zero (a : R) (self : InvertedPendulum) : np_div a 0 self = None.
Proof. unfold np_div. destruct (Req_EM_T 0 0); [reflexivity | contradiction]. Qed.

Lemma apply_nondegenerate (self : InvertedPendulum) (F : R) :
  nondegenerate self ->
  apply F self = Some (euler_step self F, with_state self (euler_step self F)).
Proof.
  intros [HM Hden]. destruct self as [l m mc dt O w x v]; simpl in *.
  unfold apply, bind, read; simpl.
  rewrite !(np_div_ok _ (m + mc)) by assumption.
  rewrite np_div_ok.
  2:{ intros E. apply Hden. rewrite <- E. f_equal. f_equal. f_equal. ring. }
  rewrite np_div_ok by assumption.
  unfold get_state, bind, read, ret, write_w, write_O, write_v, write_x; simpl.
  unfold euler_step, with_state, angular_acceleration, linear_acceleration, g; simpl.
  replace (m * l * w * w * sin O) with (m * l * (w * (w * 1)) * sin O) by ring.
  replace (m * cos O * cos O) with (m * (cos O * (cos O * 1))) by ring.
  replace (w * w * sin O) with (w * (w * 1) * sin O) by ring.
  reflexivity.
Qed.

Lemma apply_degenerate (self : InvertedPendulum) (F : R) :
  ~ nondegenerate self -> apply F self = None.
Proof.
  intros Hn. destruct self as [l m mc dt O w x v]; unfold nondegenerate in Hn; simpl in *.
  unfold apply, bind, read; simpl.
  destruct (Req_EM_T (m + mc) 0) as [E | HM].
  - rewrite E, np_div_zero. reflexivity.
  - rewrite !(np_div_ok _ (m + mc)) by assumption.
    destruct (Req_EM_T (l * (4 / 3 - m * cos O * cos O / (m + mc))) 0) as [E | Hd].
    + rewrite E, np_div_zero. reflexivity.
    + exfalso. apply Hn. split; [assumption |].
      intros E. apply Hd. rewrite <- E. f_equal. f_equal. f_equal. ring.
Qed.

Lemma set_state_run (self : InvertedPendulum) (O w x v : R) :
  set_state O w x v self = Some (tt, with_state self (pv O, w, x, v)).
Proof. destruct self; reflexivity. Qed.

Lemma get_state_run (self : InvertedPendulum) :
  get_state self
  = Some ((self_O self, self_w self, self_x self, self_v self), self).
Proof. reflexivity. Qed.

Lemma nondegenerate_dec (self : InvertedPendulum) :
  {nondegenerate self} + {~ nondegenerate self}.
Proof.
  unfold nondegenerate.
  destruct (Req_EM_T (self_m self + self_mc self) 0) as [E | HM];
    [right; tauto |].
  destruct (Req_EM_T (self_l self * (4 / 3 - self_m self * cos (self_O self) ^ 2
                                     / (self_m self + self_mc self))) 0)
    as [E | Hd]; [right; tauto | left; tauto].
Qed.



Lemma angular_acceleration_odd (l m mc O w F : R) :
  angular_acceleration l m mc (- O) (- w) (- F)
  = - angular_acceleration l m mc O w F.
Proof.
  unfold angular_acceleration. rewrite sin_neg, cos_neg. unfold Rdiv. ring.
Qed.

Lemma linear_acceleration_odd (l m mc O w F : R) :
  linear_acceleration l m mc (- O) (- w) (- F)
  = - linear_acceleration l m mc O w F.
Proof.
  unfold linear_acceleration. rewrite angular_acceleration_odd.
  rewrite sin_neg, cos_neg. unfold Rdiv. ring.
Qed.

Lemma euler_step_upright (l m mc dt : R) :
  euler_step (init l m mc dt) 0 = (0, 0, 0, 0).
Proof.
  unfold euler_step, linear_acceleration, angular_acceleration, init; simpl.
  rewrite sin_0, cos_0.
  set (d := l * (4 / 3 - m * (1 * (1 * 1)) / (m + mc))).
  assert (Hq : (g * 0 + (- 0 - m * l * (0 * (0 * 1)) * 0) * 1 / (m + mc)) / d = 0)
    by (unfold Rdiv; ring).
  rewrite Hq.
  assert (Ha : 0 - m * l * (0 * (0 * 1) * 0 - 0 * 1) / (m + mc) = 0)
    by (unfold Rdiv; ring).
  rewrite Ha.
  replace (0 + (0 + 0 * dt) * dt) with 0 by ring.
  replace (0 + 0 * dt) with 0 by ring.
  rewrite pv_0. reflexivity.
Qed.

Lemma init_default_nondegenerate : nondegenerate init_default.
Proof.
  unfold nondegenerate, init_default, init; simpl. rewrite cos_0. split; lra.
Qed.

Lemma upright_nondegenerate (l m mc dt : R) :
  m + mc <> 0 -> l * (4 / 3 - m / (m + mc)) <> 0 ->
  nondegenerate (init l m mc dt).
Proof.
  intros HM Hd. unfold nondegenerate, init; simpl. rewrite cos_0.
  split; [assumption |].
  replace (m * (1 * (1 * 1))) with m by ring. assumption.
Qed.

Lemma apply_upright (l m mc dt : R) :
  m + mc <> 0 -> l * (4 / 3 - m / (m + mc)) <> 0 ->
  apply 0 (init l m mc dt) = Some ((0, 0, 0, 0), init l m mc dt).
Proof.
  intros HM Hd.
  rewrite apply_nondegenerate by (apply upright_nondegenerate; assumption).
  rewrite euler_step_upright. reflexivity.
Qed.

Lemma euler_step_upright_free (l m mc dt w x v : R) :
  euler_step (mkPendulum l m mc dt 0 w x v) 0 = (pv (w * dt), w, x + v * dt, v).
Proof.
  unfold euler_step, linear_acceleration, angular_acceleration; simpl.
  rewrite sin_0, cos_0.
  set (d := l * (4 / 3 - m * (1 * (1 * 1)) / (m + mc))).
  assert (Hq : (g * 0 + (- 0 - m * l * (w * (w * 1)) * 0) * 1 / (m + mc)) / d = 0)
    by (unfold Rdiv; ring).
  rewrite Hq.
  assert (Ha : 0 - m * l * (w * (w * 1) * 0 - 0 * 1) / (m + mc) = 0)
    by (unfold Rdiv; ring).
  rewrite Ha.
  replace (0 + (w + 0 * dt) * dt) with (w * dt) by ring.
  replace (w + 0 * dt) with w by ring.
  replace (x + (v + 0 * dt) * dt) with (x + v * dt) by ring.
  replace (v + 0 * dt) with v by ring.
  reflexivity.
Qed.

(** ** The claims about the dynamics model *)

(** C1: on non-degenerate parameters [apply(F)] returns the state obtained
    from the angular acceleration [q] and the linear acceleration [a] of the
    cart-pole equations (with g = 9.80665 and M = m + mc) by semi-implicit
    Euler: the new angular velocity is [w + q*dt], the new angle is the
    principal value of [O + w_new*dt] (the updated velocity), the new cart
    speed is [v + a*dt], the new position is [x + v_new*dt]; the returned
    tuple is also the state the object is left in. *)
Theorem apply_semi_implicit_euler (self : InvertedPendulum) (F : R) :
  nondegenerate self ->
  exists O_new w_new x_new v_new : R,
    apply F self
    = Some ((O_new, w_new, x_new, v_new),
            mkPendulum (self_l self) (self_m self) (self_mc self) (self_dt self)
                       O_new w_new x_new v_new) /\
    (let M := self_m self + self_mc self in
     let so := sin (self_O self) in
     let co := cos (self_O self) in
     let q := (9.80665 * so
               + (- F - self_m self * self_l self * self_w self ^ 2 * so) * co / M)
              / (self_l self * (4 / 3 - self_m self * co ^ 2 / M)) in
     let a := F - (self_m self * self_l self * (self_w self ^ 2 * so - q * co)) / M in
     w_new = self_w self + q * self_dt self /\
     O_new = pv (self_O self + w_new * self_dt self) /\
     v_new = self_v self + a * self_dt self /\
     x_new = self_x self + v_new * self_dt self) /\
    (O_new, w_new, x_new, v_new) = euler_step self F.
Proof.
  intros Hn.
  pose proof (apply_nondegenerate self F Hn) as Hrun.
  unfold euler_step in *.
  eexists _, _, _, _. split; [exact Hrun |].
  split; [| reflexivity].
  unfold linear_acceleration, angular_acceleration, g. cbv zeta.
  repeat split; reflexivity.
Qed.

Lemma apply_semi_implicit_euler_witness :
  nondegenerate init_default /\
  exists O_new w_new x_new v_new : R,
    apply 1 init_default
    = Some ((O_new, w_new, x_new, v_new),
            mkPendulum 0.5 0.1 0.5 0.01 O_new w_new x_new v_new) /\
    (let M := 0.1 + 0.5 in
     let so := sin 0 in
     let co := cos 0 in
     let q := (9.80665 * so + (- 1 - 0.1 * 0.5 * 0 ^ 2 * so) * co / M)
              / (0.5 * (4 / 3 - 0.1 * co ^ 2 / M)) in
     let a := 1 - (0.1 * 0.5 * (0 ^ 2 * so - q * co)) / M in
     w_new = 0 + q * 0.01 /\
     O_new = pv (0 + w_new * 0.01) /\
     v_new = 0 + a * 0.01 /\
     x_new = 0 + v_new * 0.01) /\
    (O_new, w_new, x_new, v_new) = euler_step init_default 1.
Proof.
  split.
  - exact init_default_nondegenerate.
  - exact (apply_semi_implicit_euler init_default 1 init_default_nondegenerate).
Defined.




(** C5: with non-degenerate parameters, the upright centred state is a fixed
    point of [apply(0)]: after any number of steps from the freshly
    constructed object (state (0, 0, 0, 0)) the state read back is exactly
    (0, 0, 0, 0) and the object is unchanged. *)
Theorem upright_equilibrium_fixed (l m mc dt : R) (n : nat) :
  m + mc <> 0 -> l * (4 / 3 - m / (m + mc)) <> 0 ->
  apply_repeatedly 0 n (init l m mc dt) = Some ((0, 0, 0, 0), init l m mc dt).
Proof.
  intros HM Hd. induction n as [| n IH].
  - reflexivity.
  - simpl. unfold bind. rewrite apply_upright by assumption. exact IH.
Qed.

Lemma upright_equilibrium_fixed_witness :
  0.1 + 0.5 <> 0 /\ 0.5 * (4 / 3 - 0.1 / (0.1 + 0.5)) <> 0 /\
  apply_repeatedly 0 3 init_default = Some ((0, 0, 0, 0), init_default).
Proof.
  assert (HM : 0.1 + 0.5 <> 0) by lra.
  assert (Hd : 0.5 * (4 / 3 - 0.1 / (0.1 + 0.5)) <> 0) by lra.
  split; [exact HM |]. split; [exact Hd |].
  exact (upright_equilibrium_fixed 0.5 0.1 0.5 0.01 3 HM Hd).
Defined.

(** C6, as amended: with non-degenerate parameters, a step from
    (O, w, x, v) under F and a step from (-O, -w, -x, -v) under -F return
    angular velocities, positions and speeds that are exact negations of each
    other; the two angles returned are the principal values of two sums
    [O + w_new*dt] that are exact negations of each other, and nothing is
    said of the principal values themselves. *)
Theorem odd_symmetry_before_normalisation (self : InvertedPendulum) (F : R) :
  nondegenerate self ->
  exists (s w1 x1 v1 : R) (st1 st2 : InvertedPendulum),
    s = self_O self + w1 * self_dt self /\
    apply F self = Some ((pv s, w1, x1, v1), st1) /\
    apply (- F)
          (with_state self
             (negate_state (self_O self, self_w self, self_x self, self_v self)))
    = Some ((pv (- s), - w1, - x1, - v1), st2).
Proof.
  intros Hn. destruct self as [l m mc dt O w x v].
  assert (Hn' : nondegenerate (mkPendulum l m mc dt (- O) (- w) (- x) (- v))).
  { unfold nondegenerate in *; simpl in *. rewrite cos_neg. exact Hn. }
  eexists _, _, _, _, _, _.
  split; [| split; [apply apply_nondegenerate; exact Hn |]].
  { unfold euler_step;
      cbn [self_l self_m self_mc self_dt self_O self_w self_x self_v].
    reflexivity. }
  unfold with_state, negate_state;
    cbn [self_l self_m self_mc self_dt self_O self_w self_x self_v].
  rewrite apply_nondegenerate by exact Hn'.
  unfold euler_step;
    cbn [self_l self_m self_mc self_dt self_O self_w self_x self_v].
  rewrite angular_acceleration_odd, linear_acceleration_odd.
  set (q := angular_acceleration l m mc O w F).
  set (a := linear_acceleration l m mc O w F).
  replace (- O + (- w + - q * dt) * dt) with (- (O + (w + q * dt) * dt)) by ring.
  replace (- w + - q * dt) with (- (w + q * dt)) by ring.
  replace (- x + (- v + - a * dt) * dt) with (- (x + (v + a * dt) * dt)) by ring.
  replace (- v + - a * dt) with (- (v + a * dt)) by ring.
  reflexivity.
Qed.

Lemma odd_symmetry_before_normalisation_witness :
  nondegenerate init_default /\
  exists (s w1 x1 v1 : R) (st1 st2 : InvertedPendulum),
    s = 0 + w1 * 0.01 /\
    apply 1 init_default = Some ((pv s, w1, x1, v1), st1) /\
    apply (- 1) (with_state init_default (negate_state (0, 0, 0, 0)))
    = Some ((pv (- s), - w1, - x1, - v1), st2).
Proof.
  split.
  - exact init_default_nondegenerate.
  - exact (odd_symmetry_before_normalisation init_default 1
             init_default_nondegenerate).
Defined.

(** C6, as stated, fails: with a time step of 1 (and the default length and
    masses), [set_state] to (0, pi, 0, 0) followed by [apply(0)] and
    [set_state] to the negated state followed by [apply(-0)] both return the
    angle -pi, so the two results are not negations of each other. *)
Lemma odd_symmetry_fails_at_branch_point :
  option_map fst ((set_state 0 PI 0 0 ;; apply 0) (init 0.5 0.1 0.5 1))
  = Some (- PI, PI, 0, 0) /\
  option_map fst
    ((set_state (- 0) (- PI) (- 0) (- 0) ;; apply (- 0)) (init 0.5 0.1 0.5 1))
  = Some (- PI, - PI, 0, 0) /\
  (- PI, - PI, 0, 0) <> negate_state (- PI, PI, 0, 0).
Proof.
  assert (Hn : forall w x v, nondegenerate (mkPendulum 0.5 0.1 0.5 1 0 w x v)).
  { intros w x v. unfold nondegenerate; simpl. rewrite cos_0. split; lra. }
  unfold bind. rewrite !set_state_run, !Ropp_0, pv_0.
  unfold with_state, negate_state, init;
    cbn [self_l self_m self_mc self_dt].
  rewrite !apply_nondegenerate by apply Hn.
  rewrite !euler_step_upright_free. cbn [option_map fst].
  replace (PI * 1) with PI by lra.
  replace (- PI * 1) with (- PI) by lra.
  rewrite pv_PI, pv_neg_PI.
  replace (0 + 0 * 1) with 0 by lra.
  split; [reflexivity |]. split; [reflexivity |].
  intros H. injection H as H. pose proof PI_RGT_0. lra.
Qed.

(** C7: after [set_state(O, w, x, v)], [get_state] returns
    (pv(O), w, x, v), in that order, and the parameters are untouched; and
    [get_state] returns the four state attributes of any object and leaves
    the object as it was. *)
Theorem set_state_then_get_state (self : InvertedPendulum) (O w x v : R) :
  (set_state O w x v ;; get_state) self
  = Some ((pv O, w, x, v),
          mkPendulum (self_l self) (self_m self) (self_mc self) (self_dt self)
                     (pv O) w x v) /\
  (forall s : InvertedPendulum,
     get_state s = Some ((self_O s, self_w s, self_x s, self_v s), s)).
Proof.
  split; [| intros s; apply get_state_run].
  unfold bind at 1. rewrite set_state_run. reflexivity.
Qed.

(** ** Further properties of the dynamics model *)


Lemma physical_denominator_pos (self : InvertedPendulum) :
  physical self ->
  0 < self_m self + self_mc self /\
  0 < 4 / 3 - self_m self * cos (self_O self) ^ 2
              / (self_m self + self_mc self).
Proof.
  intros (Hl & Hm & Hmc).
  set (M := self_m self + self_mc self).
  assert (HM : 0 < M) by (unfold M; lra).
  split; [exact HM |].
  pose proof (COS_bound (self_O self)) as [Hc1 Hc2].
  assert (Hc : cos (self_O self) ^ 2 <= 1) by nra.
  assert (Hq : self_m self * cos (self_O self) ^ 2 / M < 1).
  { apply (Rmult_lt_reg_r M); [exact HM |].
    replace (self_m self * cos (self_O self) ^ 2 / M * M)
      with (self_m self * cos (self_O self) ^ 2) by (field; lra).
    unfold M. nra. }
  lra.
Qed.

Lemma physical_nondegenerate (self : InvertedPendulum) :
  physical self -> nondegenerate self.
Proof.
  intros Hp. destruct (physical_denominator_pos self Hp) as [HM HD].
  destruct Hp as (Hl & _). unfold nondegenerate. split; [lra |].
  apply Rmult_integral_contrapositive_currified; lra.
Qed.


(** The step has a result exactly when neither divisor of [apply] is zero. *)
Theorem apply_defined_iff (self : InvertedPendulum) (F : R) :
  is_Some (apply F self) <-> nondegenerate self.
Proof.
  split.
  - intros [r Hr]. destruct (nondegenerate_dec self) as [Hn | Hn]; [exact Hn |].
    rewrite apply_degenerate in Hr by exact Hn. discriminate Hr.
  - intros Hn. rewrite apply_nondegenerate by exact Hn. eexists; reflexivity.
Qed.

(** No method changes the length, the masses or the time step. *)
Theorem methods_keep_parameters (self self' : InvertedPendulum) :
  (exists O w x v : R, exec (set_state O w x v) self = Some self') \/
  exec get_state self = Some self' \/
  (exists F : R, exec (apply F) self = Some self') ->
  parameters self' = parameters self.
Proof.
  unfold exec. intros [(O & w & x & v & H) | [H | (F & H)]].
  - rewrite set_state_run in H. injection H as <-. reflexivity.
  - rewrite get_state_run in H. injection H as <-. reflexivity.
  - destruct (nondegenerate_dec self) as [Hn | Hn].
    + rewrite apply_nondegenerate in H by exact Hn. injection H as <-.
      reflexivity.
    + rewrite apply_degenerate in H by exact Hn. discriminate H.
Qed.

Lemma methods_keep_parameters_witness :
  exec (set_state 7 1 2 3) init_default
  = Some (with_state init_default (pv 7, 1, 2, 3)) /\
  parameters (with_state init_default (pv 7, 1, 2, 3)) = parameters init_default.
Proof.
  split.
  - reflexivity.
  - apply (methods_keep_parameters init_default
             (with_state init_default (pv 7, 1, 2, 3))).
    left. exists 7, 1, 2, 3. reflexivity.
Defined.



(** [set_state] overwrites the whole state: what an earlier step or an
    earlier [set_state] left behind has no influence on the object it
    leaves. *)
Theorem set_state_overwrites (self : InvertedPendulum) (F O w x v : R) :
  is_Some (apply F self) ->
  (apply F ;; set_state O w x v) self = set_state O w x v self /\
  (forall O0 w0 x0 v0 : R,
     (set_state O0 w0 x0 v0 ;; set_state O w x v) self = set_state O w x v self).
Proof.
  intros HF. split.
  - apply apply_defined_iff in HF. unfold bind.
    rewrite apply_nondegenerate by exact HF. rewrite !set_state_run.
    unfold euler_step. reflexivity.
  - intros O0 w0 x0 v0. unfold bind. rewrite !set_state_run. reflexivity.
Qed.

Lemma set_state_overwrites_witness :
  is_Some (apply 1 init_default) /\
  (apply 1 ;; set_state 7 1 2 3) init_default = set_state 7 1 2 3 init_default /\
  (forall O0 w0 x0 v0 : R,
     (set_state O0 w0 x0 v0 ;; set_state 7 1 2 3) init_default
     = set_state 7 1 2 3 init_default).
Proof.
  assert (H : is_Some (apply 1 init_default)).
  { rewrite (apply_nondegenerate _ _ init_default_nondegenerate).
    eexists; reflexivity. }
  split.
  - exact H.
  - exact (set_state_overwrites init_default 1 7 1 2 3 H).
Defined.

(** The accelerations do not depend on where the cart is or how fast it
    moves: from a state whose position and speed are shifted by [c] and [u],
    a step returns the same angle and the same angular velocity, and advances
    the speed and the position with the same linear acceleration [a]. *)
Theorem apply_ignores_cart_state (self : InvertedPendulum) (F c u : R) :
  nondegenerate self ->
  exists O' w' a : R,
    option_map fst (apply F self)
    = Some (O', w',
            self_x self + (self_v self + a * self_dt self) * self_dt self,
            self_v self + a * self_dt self) /\
    option_map fst
      (apply F (with_state self (self_O self, self_w self,
                                 self_x self + c, self_v self + u)))
    = Some (O', w',
            self_x self + c + (self_v self + u + a * self_dt self) * self_dt self,
            self_v self + u + a * self_dt self).
Proof.
  intros Hn. destruct self as [l m mc dt O w x v].
  assert (Hn' : nondegenerate (mkPendulum l m mc dt O w (x + c) (v + u))) by exact Hn.
  eexists _, _, _. split.
  - rewrite apply_nondegenerate by exact Hn. reflexivity.
  - unfold with_state; cbn [self_l self_m self_mc self_dt self_O self_w self_x self_v].
    rewrite apply_nondegenerate by exact Hn'. reflexivity.
Qed.

Lemma apply_ignores_cart_state_witness :
  nondegenerate init_default /\
  exists O' w' a : R,
    option_map fst (apply 1 init_default)
    = Some (O', w', 0 + (0 + a * 0.01) * 0.01, 0 + a * 0.01) /\
    option_map fst
      (apply 1 (with_state init_default (0, 0, 0 + 2, 0 + 3)))
    = Some (O', w', 0 + 2 + (0 + 3 + a * 0.01) * 0.01, 0 + 3 + a * 0.01).
Proof.
  split.
  - exact init_default_nondegenerate.
  - exact (apply_ignores_cart_state init_default 1 2 3 init_default_nondegenerate).
Defined.

(** The upright position is kept under no force whatever the cart does:
    from angle 0 and zero angular velocity, any number of steps leaves both
    at 0 and the speed [v] as it is, and each step adds [v*dt] to the
    position. *)
Theorem upright_cart_drifts (n : nat) (self : InvertedPendulum) :
  self_O self = 0 -> self_w self = 0 -> nondegenerate self ->
  apply_repeatedly 0 n self
  = Some ((0, 0,
           Nat.iter n (fun p => p + self_v self * self_dt self) (self_x self),
           self_v self),
          with_state self
            (0, 0,
             Nat.iter n (fun p => p + self_v self * self_dt self) (self_x self),
             self_v self)).
Proof.
  revert self. induction n as [| n IH]; intros self HO Hw Hn;
    destruct self as [l m mc dt O w x v];
    cbn [self_O self_w self_x self_v self_dt] in *; subst O w.
  - reflexivity.
  - cbn [apply_repeatedly]. unfold bind at 1.
    rewrite apply_nondegenerate by exact Hn.
    rewrite euler_step_upright_free.
    replace (0 * dt) with 0 by ring. rewrite pv_0.
    unfold with_state at 1;
      cbn [self_l self_m self_mc self_dt self_O self_w self_x self_v].
    rewrite IH; [| reflexivity | reflexivity | exact Hn].
    cbn [self_l self_m self_mc self_dt self_O self_w self_x self_v with_state].
    rewrite Nat.iter_succ_r. reflexivity.
Qed.

Lemma upright_cart_drifts_witness :
  self_O (with_state init_default (0, 0, 1, 2)) = 0 /\
  self_w (with_state init_default (0, 0, 1, 2)) = 0 /\
  nondegenerate (with_state init_default (0, 0, 1, 2)) /\
  apply_repeatedly 0 5 (with_state init_default (0, 0, 1, 2))
  = Some ((0, 0, Nat.iter 5 (fun p => p + 2 * 0.01) 1, 2),
          with_state init_default
            (0, 0, Nat.iter 5 (fun p => p + 2 * 0.01) 1, 2)).
Proof.
  assert (Hn : nondegenerate (with_state init_default (0, 0, 1, 2))).
  { unfold nondegenerate, with_state, init_default, init; simpl.
    rewrite cos_0. split; lra. }
  split; [reflexivity |]. split; [reflexivity |]. split; [exact Hn |].
  exact (upright_cart_drifts 5 (with_state init_default (0, 0, 1, 2))
           eq_refl eq_refl Hn).
Defined.

(** Gravity decides the direction of the fall: with physical parameters, a
    positive length and a positive time step, a step under no force from
    zero angular velocity returns a positive angular velocity when the angle
    is in (0, pi) and a negative one when it is in (-pi, 0). *)
Theorem gravity_tips_pendulum (self : InvertedPendulum) :
  physical self -> 0 < self_l self -> 0 < self_dt self -> self_w self = 0 ->
  exists (O' w' x' v' : R) (self' : InvertedPendulum),
    apply 0 self = Some ((O', w', x', v'), self') /\
    (0 < self_O self < PI -> 0 < w') /\
    (- PI < self_O self < 0 -> w' < 0).
Proof.
  intros Hp Hl Hdt Hw.
  destruct (physical_denominator_pos self Hp) as [HM HD].
  eexists _, _, _, _, _.
  split; [apply apply_nondegenerate, physical_nondegenerate, Hp |].
  destruct self as [l m mc dt O w x v];
    cbn [self_l self_m self_mc self_dt self_O self_w self_x self_v] in *.
  subst w. unfold angular_acceleration.
  set (D := l * (4 / 3 - m * cos O ^ 2 / (m + mc))).
  assert (HDpos : 0 < D) by (unfold D; apply Rmult_lt_0_compat; lra).
  replace (g * sin O + (- 0 - m * l * 0 ^ 2 * sin O) * cos O / (m + mc))
    with (g * sin O) by (unfold Rdiv; ring).
  assert (Hg : 0 < g) by (unfold g; lra).
  assert (Hinv : 0 < / D) by (apply Rinv_0_lt_compat; exact HDpos).
  split.
  - intros [H1 H2]. pose proof (sin_gt_0 O H1 H2) as Hs.
    assert (0 < g * sin O / D * dt).
    { unfold Rdiv.
      apply Rmult_lt_0_compat; [apply Rmult_lt_0_compat; [apply Rmult_lt_0_compat |] |];
        assumption. }
    lra.
  - intros [H1 H2]. pose proof (sin_lt_0_var O H1 H2) as Hs.
    assert (0 < g * (- sin O) / D * dt).
    { unfold Rdiv.
      apply Rmult_lt_0_compat; [apply Rmult_lt_0_compat; [apply Rmult_lt_0_compat |] |];
        try assumption. lra. }
    assert (g * (- sin O) / D * dt = - (g * sin O / D * dt))
      by (unfold Rdiv; ring).
    lra.
Qed.

Lemma gravity_tips_pendulum_witness :
  physical (with_state init_default (1, 0, 0, 0)) /\
  0 < 0.5 /\ 0 < 0.01 /\ self_w (with_state init_default (1, 0, 0, 0)) = 0 /\
  exists (O' w' x' v' : R) (self' : InvertedPendulum),
    apply 0 (with_state init_default (1, 0, 0, 0))
    = Some ((O', w', x', v'), self') /\
    (0 < 1 < PI -> 0 < w') /\
    (- PI < 1 < 0 -> w' < 0).
Proof.
  assert (Hp : physical (with_state init_default (1, 0, 0, 0))).
  { unfold physical, with_state, init_default, init; simpl. repeat split; lra. }
  assert (Hl : 0 < 0.5) by lra.
  assert (Hdt : 0 < 0.01) by lra.
  split; [exact Hp |]. split; [exact Hl |]. split; [exact Hdt |].
  split; [reflexivity |].
  exact (gravity_tips_pendulum (with_state init_default (1, 0, 0, 0))
           Hp Hl Hdt eq_refl).
Defined.

(** With a time step of zero a step moves nothing: it returns the angular
    velocity, the position and the speed as they are, and the principal value
    of the stored angle, and stores what it returns. *)
Theorem zero_time_step_only_normalises (self : InvertedPendulum) (F : R) :
  nondegenerate self -> self_dt self = 0 ->
  apply F self
  = Some ((pv (self_O self), self_w self, self_x self, self_v self),
          with_state self
            (pv (self_O self), self_w self, self_x self, self_v self)).
Proof.
  intros Hn Hdt. rewrite apply_nondegenerate by exact Hn.
  destruct self as [l m mc dt O w x v];
    cbn [self_l self_m self_mc self_dt self_O self_w self_x self_v] in *.
  subst dt. unfold euler_step;
    cbn [self_l self_m self_mc self_dt self_O self_w self_x self_v].
  set (q := angular_acceleration l m mc O w F).
  set (a := linear_acceleration l m mc O w F).
  replace (O + (w + q * 0) * 0) with O by ring.
  replace (w + q * 0) with w by ring.
  replace (x + (v + a * 0) * 0) with x by ring.
  replace (v + a * 0) with v by ring.
  reflexivity.
Qed.

Lemma zero_time_step_only_normalises_witness :
  nondegenerate (with_state (init 0.5 0.1 0.5 0) (7, 1, 2, 3)) /\
  self_dt (with_state (init 0.5 0.1 0.5 0) (7, 1, 2, 3)) = 0 /\
  apply 3 (with_state (init 0.5 0.1 0.5 0) (7, 1, 2, 3))
  = Some ((pv 7, 1, 2, 3), with_state (init 0.5 0.1 0.5 0) (pv 7, 1, 2, 3)).
Proof.
  assert (Hn : nondegenerate (with_state (init 0.5 0.1 0.5 0) (7, 1, 2, 3))).
  { apply physical_nondegenerate.
    unfold physical, with_state, init; simpl. repeat split; lra. }
  split; [exact Hn |]. split; [reflexivity |].
  exact (zero_time_step_only_normalises
           (with_state (init 0.5 0.1 0.5 0) (7, 1, 2, 3)) 3 Hn eq_refl).
Defined.

End PendulumFacts.

(** ** The round trip on binary64 floats *)

Module Pendulum64Facts.

Import PrimFloat Pendulum64.

Local Open Scope float_scope.

(** C10 fails on the doubles the program computes with.  [set_state] with
    the double just below [-pi] stores [pi] itself, which the documentation
    of [__pv] excludes ([-pi <= x < pi]); [get_state] returns it, and
    [set_state] on the returned tuple stores [-pi]: the round trip changes
    the state. *)
Theorem get_set_roundtrip_flips_at_edge :
  set_state (-0x1.921fb54442d19p+1) 0 0 0 init = Some (mkPendulum pi 0 0 0) /\
  (self_O (mkPendulum pi 0 0 0) <? pi) = false /\
  get_state (mkPendulum pi 0 0 0) = (pi, 0, 0, 0) /\
  get_then_set (mkPendulum pi 0 0 0) = Some (mkPendulum (- pi) 0 0 0) /\
  (- pi <? pi) = true.
Proof. repeat split; vm_compute; reflexivity. Qed.

End Pendulum64Facts.

(** ** Properties of the controller assembly *)

Module ControllerFacts.

Import Controller.

Section Assembly.

Context {MF DF : Type}.
Variable flat_saw : R * R -> nat -> list MF.
Variable defuzzy : DF.

Abbreviation store := (Store MF DF).
Abbreviation create_controller := (Controller.create_controller flat_saw defuzzy).
Abbreviation PC := (Controller.PC flat_saw defuzzy).

(** ** What every run of [create_controller] registers *)

Lemma new_variable_registered (c : VariableClass DF) (st st' : store) (l : nat) :
  new_variable c st = Some (l, st') -> registered st' = registered st.
Proof. intros [= _ <-]. reflexivity. Qed.

Lemma set_variable_registered (name : string) (l : nat) (st st' : store) (u : unit) :
  set_variable name l st = Some (u, st') -> registered st' = registered st.
Proof. intros [= _ <-]. reflexivity. Qed.

Lemma dict_comprehension_registered (pairs : list (string * MF)) :
  forall (d d' : gmap string (Adjective MF)) (st st' : store),
    dict_comprehension pairs d st = Some (d', st') ->
    registered st' = registered st.
Proof.
  induction pairs as [| [name f] rest IH]; intros d d' st st' H; simpl in H.
  - injection H as _ <-. reflexivity.
  - apply bind_Some in H as (a & st1 & Ha & H).
    rewrite (IH _ _ _ _ H). injection Ha as _ <-. reflexivity.
Qed.

Lemma set_adjectives_registered (l : nat) (d : gmap string (Adjective MF))
    (st st' : store) (u : unit) :
  set_adjectives l d st = Some (u, st') -> registered st' = registered st.
Proof.
  unfold set_adjectives. destruct (heap st !! l); [| discriminate].
  intros [= _ <-]. reflexivity.
Qed.

Lemma lookup_adjective_store (var name : string) (st st' : store)
    (a : Adjective MF) :
  lookup_adjective var name st = Some (a, st') -> st' = st.
Proof.
  unfold lookup_adjective.
  destruct (variables (controller st) !! var); [| discriminate].
  destruct (heap st !! _) as [V |]; [| discriminate].
  destruct (adjectives V !! name); [| discriminate].
  intros [= _ <-]. reflexivity.
Qed.

Lemma lookups_registered (var : string) (names : list string) (st st' : store)
    (l : list (Adjective MF)) :
  mapM (lookup_adjective var) names st = Some (l, st') ->
  registered st' = registered st.
Proof.
  apply (mapM_preserves registered). intros a s b s' H.
  apply lookup_adjective_store in H. now subst.
Qed.

Lemma grid_lookups_registered (var : string) (grid : list (list string))
    (st st' : store) (l : list (list (Adjective MF))) :
  mapM (mapM (lookup_adjective var)) grid st = Some (l, st') ->
  registered st' = registered st.
Proof.
  apply (mapM_preserves registered). intros a s b s' H.
  eapply lookups_registered; eassumption.
Qed.

Lemma add_table_registered (rows cols : list (Adjective MF))
    (cells : list (list (Adjective MF))) (st st' : store) (u : unit) :
  add_table rows cols cells st = Some (u, st') ->
  registered st' = registered st ++ [mkTable rows cols cells] /\
  length cells = length rows.
Proof.
  unfold add_table.
  destruct (bool_decide (length cells = length rows)) eqn:E; [| discriminate].
  simpl. destruct (forallb _ cells); [| discriminate].
  intros [= _ <-]. split; [reflexivity |]. now apply bool_decide_eq_true in E.
Qed.

(** Whatever the partitioner returns and whatever store it starts from, a
    run of [create_controller] that succeeds returns a controller with one
    registered table, of seven rows. *)
Lemma create_controller_registers (st0 st : store) (c : PendulumController MF) :
  create_controller st0 = Some (c, st) ->
  exists t : RuleTable MF,
    tables c = [t] /\ registered st = [t] /\
    length (tbl_rows t) = 7 /\ length (tbl_cells t) = 7.
Proof.
  unfold create_controller. intros H.
  apply bind_Some in H as (? & s1 & H1 & H).
  assert (R1 : registered s1 = []) by (injection H1 as _ <-; reflexivity).
  repeat (apply bind_Some in H as (? & ? & ? & H)).
  injection H as <- <-.
  repeat match goal with
  | H : new_variable _ _ = Some _ |- _ => apply new_variable_registered in H
  | H : set_variable _ _ _ = Some _ |- _ => apply set_variable_registered in H
  | H : dict_comprehension _ _ _ = Some _ |- _ =>
      apply dict_comprehension_registered in H
  | H : set_adjectives _ _ _ = Some _ |- _ => apply set_adjectives_registered in H
  | H : mapM (lookup_adjective "O") _ _ = Some _ |- _ =>
      pose proof (mapM_length _ _ _ _ _ H); apply lookups_registered in H
  | H : mapM (lookup_adjective _) _ _ = Some _ |- _ => apply lookups_registered in H
  | H : mapM (mapM _) _ _ = Some _ |- _ => apply grid_lookups_registered in H
  | H : add_table _ _ _ _ = Some _ |- _ =>
      apply add_table_registered in H as [H ?]
  end.
  eexists. split; [| split; [| split]].
  - unfold registered in *. repeat match goal with
      | H : tables (controller _) = _ |- _ => rewrite H end.
    reflexivity.
  - unfold registered in *. repeat match goal with
      | H : tables (controller _) = _ |- _ => rewrite H end.
    reflexivity.
  - simpl. assumption.
  - simpl. match goal with
    | H1 : length ?cells = length ?rows, H2 : length ?rows = _
      |- length ?cells = _ => rewrite H1; exact H2
    end.
Qed.

(** ** The module-level controller, for a partitioner that returns as many
       membership functions as it is asked for *)

Section Partitioned.

Hypothesis flat_saw_length :
  forall (rng : R * R) (n : nat), length (flat_saw rng n) = n.

(** Name the members of a partitioner result. *)
Ltac enumerate rng n :=
  let l := fresh "mfs" in
  let H := fresh "Hlen" in
  pose proof (flat_saw_length rng n) as H;
  set (l := flat_saw rng n) in *; clearbody l;
  repeat (destruct l as [| ? l]; [discriminate H | simpl in H; apply Nat.succ_inj in H]);
  destruct l; [clear H | discriminate H].

(** Run [PC] to its value and name the controller, the final store and the
    registered table. *)
Ltac run_PC c st t :=
  unfold PC, create_controller;
  enumerate (-3 * PI / 8, 3 * PI / 8)%R 7%nat;
  enumerate (-3 * PI, 3 * PI)%R 5%nat;
  enumerate (-100, 100)%R 9%nat;
  enumerate (-10, 10)%R 3%nat;
  enumerate (-6, 6)%R 3%nat;
  match goal with
  | |- context [bind ?m ?k empty_store] =>
      let r := fresh "r" in
      set (r := bind m k empty_store);
      let v := eval vm_compute in r in
      match v with
      | Some (?C, ?ST) =>
          pose (c := C); pose (st := ST);
          replace r with (Some (c, st)) by (vm_compute; reflexivity);
          clear r;
          match eval vm_compute in (tables c) with
          | [?T] => pose (t := T)
          end
      end
  end.

Ltac by_evaluation := vm_compute; reflexivity.

Ltac in_list := solve [repeat (apply list_elem_of_here || apply list_elem_of_further)].

(** C4: the module-level controller holds one registered table, of 7 rows
    by 5 columns and 35 rules: its rows are the adjectives of O under
    [O_names], its columns those of w under [w_names], its cells those of F
    under the names of [table_names], place by place, and every one of them
    is defined; for the angle category in row [i] of [O_names] and the
    angular-velocity category in column [j] of [w_names] it assigns exactly
    the force category written at that place of the table, a name of
    [F_names]; [("Ovbn", "wbn")] gives ["Fvvbn"], [("Ovbp", "wbp")] gives
    ["Fvvbp"] and [("Oz", "wz")] gives ["Fz"]. *)
Theorem primary_table_total :
  exists (c : PendulumController MF) (st : store) (t : RuleTable MF),
    PC = Some (c, st) /\ tables c = [t] /\
    length (tbl_rows t) = 7 /\ length (tbl_cols t) = 5 /\
    length (tbl_cells t) = 7 /\
    Forall (λ row, length row = 5) (tbl_cells t) /\
    rule_count c = 35 /\
    map Some (tbl_rows t) = map (adjective_of st "O") O_names /\
    map Some (tbl_cols t) = map (adjective_of st "w") w_names /\
    map (map Some) (tbl_cells t) = map (map (adjective_of st "F")) table_names /\
    (forall (i j : nat) (o w : string),
       O_names !! i = Some o -> w_names !! j = Some w ->
       exists f : string,
         (table_names !! i ≫= (.!! j)) = Some f /\
         f ∈ F_names /\
         rule st t o w = Some f) /\
    rule st t "Ovbn" "wbn" = Some "Fvvbn" /\
    rule st t "Ovbp" "wbp" = Some "Fvvbp" /\
    rule st t "Oz" "wz" = Some "Fz".
Proof.
  run_PC c st t. exists c, st, t.
  split; [reflexivity |]. split; [by_evaluation |].
  split; [reflexivity |]. split; [reflexivity |]. split; [reflexivity |].
  split; [repeat constructor |]. split; [by_evaluation |].
  split; [by_evaluation |]. split; [by_evaluation |]. split; [by_evaluation |].
  split; [| repeat split; by_evaluation].
  intros i j o w Hi Hj.
  repeat (destruct i as [| i]; [injection Hi as <- | simpl in Hi]);
    try discriminate Hi;
    (repeat (destruct j as [| j]; [injection Hj as <- | simpl in Hj]));
    try discriminate Hj;
    (eexists; split; [reflexivity |]; split; [in_list | by_evaluation]).
Qed.

(** Check one variable of the final store against its names and its
    partition. *)
Ltac check_variable st var :=
  match eval vm_compute in (variable_of st var) with
  | Some ?V0 =>
      let V := fresh "V" in
      let i := fresh "i" in
      let name := fresh "name" in
      let Hi := fresh "Hi" in
      pose (V := V0); exists V;
      split; [by_evaluation |]; split; [reflexivity |];
      split; [reflexivity |]; split; [reflexivity |];
      split; [by_evaluation |];
      intros i name Hi;
      repeat (destruct i as [| i]; [injection Hi as <- | simpl in Hi]);
      try discriminate Hi;
      (match goal with
       | |- ex (λ a, ?lhs = Some a /\ _) =>
           match eval vm_compute in lhs with
           | Some ?a0 => exists a0
           end
       end;
       split; [by_evaluation | split; [reflexivity | by_evaluation]])
  end.

(** C9: the module-level controller defines exactly the five variables O,
    w, F, x and v; O and w, x and v are input variables, F is the output
    variable; each binds its category names, in the order listed, one-to-one
    to the members of the partition of its range into as many parts:
    7 over [-3pi/8, 3pi/8], 5 over [-3pi, 3pi], 9 over [-100, 100],
    3 over [-10, 10] and 3 over [-6, 6]. *)
Theorem five_linguistic_variables :
  exists (c : PendulumController MF) (st : store),
    PC = Some (c, st) /\
    dom (variables c) = list_to_set ["O"; "w"; "F"; "x"; "v"] /\
    bound_in_order st "O" (InputVariable Plain)
      ["Ovbn"; "Obn"; "Osn"; "Oz"; "Osp"; "Obp"; "Ovbp"]
      (flat_saw (-3 * PI / 8, 3 * PI / 8)%R 7) 7 /\
    bound_in_order st "w" (InputVariable Plain)
      ["wbn"; "wsn"; "wz"; "wsp"; "wbp"]
      (flat_saw (-3 * PI, 3 * PI)%R 5) 5 /\
    bound_in_order st "F" (OutputVariable defuzzy)
      ["Fvvbn"; "Fvbn"; "Fbn"; "Fsn"; "Fz"; "Fsp"; "Fbp"; "Fvbp"; "Fvvbp"]
      (flat_saw (-100, 100)%R 9) 9 /\
    bound_in_order st "x" (InputVariable Plain)
      ["xn"; "xz"; "xp"] (flat_saw (-10, 10)%R 3) 3 /\
    bound_in_order st "v" (InputVariable Plain)
      ["vn"; "vz"; "vp"] (flat_saw (-6, 6)%R 3) 3.
Proof.
  run_PC c st t. exists c, st.
  split; [reflexivity |]. split; [by_evaluation |].
  split; [check_variable st "O" |]. split; [check_variable st "w" |].
  split; [check_variable st "F" |]. split; [check_variable st "x" |].
  check_variable st "v".
Qed.

(** C8, as amended: the module-level controller holds exactly one
    registered table, the 7 by 5 one with its 35 rules.  The second table is
    complete data: it is 3 by 3 over names of [F_names], and on the final
    store its row categories (of x), its column categories (of v) and its
    cells (of F) all resolve; yet the table they form is not registered.
    Every run of [create_controller] that succeeds, from any store,
    registers one table of seven rows and no other. *)
Theorem position_table_not_registered :
  (exists (c : PendulumController MF) (st : store) (t : RuleTable MF),
     PC = Some (c, st) /\ tables c = [t] /\
     length (tbl_cells t) = 7 /\ rule_count c = 35 /\
     exists (rows cols : list (Adjective MF)) (cells : list (list (Adjective MF))),
       mapM (lookup_adjective "x") x_names st = Some (rows, st) /\
       mapM (lookup_adjective "v") v_names st = Some (cols, st) /\
       mapM (mapM (lookup_adjective "F")) table_names_2 st = Some (cells, st) /\
       length rows = 3 /\ length cols = 3 /\
       Forall (λ row, length row = 3) cells /\
       mkTable rows cols cells ∉ tables c) /\
  length table_names_2 = 3 /\
  Forall (λ row, length row = 3 /\ Forall (λ f, f ∈ F_names) row) table_names_2 /\
  (forall (st0 st : store) (c : PendulumController MF),
     create_controller st0 = Some (c, st) ->
     exists t : RuleTable MF, tables c = [t] /\ length (tbl_cells t) = 7).
Proof.
  split; [| split; [reflexivity | split]].
  - run_PC c st t. exists c, st, t.
    split; [reflexivity |]. split; [by_evaluation |].
    split; [reflexivity |]. split; [by_evaluation |].
    match eval vm_compute in (mapM (lookup_adjective "x") x_names st) with
    | Some (?rows, _) => exists rows
    end.
    match eval vm_compute in (mapM (lookup_adjective "v") v_names st) with
    | Some (?cols, _) => exists cols
    end.
    match eval vm_compute in (mapM (mapM (lookup_adjective "F")) table_names_2 st) with
    | Some (?cells, _) => exists cells
    end.
    split; [by_evaluation |]. split; [by_evaluation |]. split; [by_evaluation |].
    split; [reflexivity |]. split; [reflexivity |].
    split; [repeat constructor |].
    replace (tables c) with [t] by (vm_compute; reflexivity).
    intros H%list_elem_of_singleton. apply (f_equal (λ u, length (tbl_rows u))) in H.
    discriminate H.
  - unfold table_names_2. repeat constructor; in_list.
  - intros st0 st c H.
    destruct (create_controller_registers st0 st c H) as (t & Hc & _ & _ & Hcells).
    exists t. split; assumption.
Qed.

(** The rule table follows one law: the index of the force category in
    [F_names] is the index of the angle category plus the index of the
    angular-velocity category, less one, kept within 0..8. *)
Theorem rule_table_index_law :
  exists (c : PendulumController MF) (st : store) (t : RuleTable MF),
    PC = Some (c, st) /\ tables c = [t] /\
    forall (i j : nat) (o w : string),
      O_names !! i = Some o -> w_names !! j = Some w ->
      rule st t o w = F_names !! (Nat.min 8 (Nat.pred (i + j))).
Proof.
  run_PC c st t. exists c, st, t.
  split; [reflexivity |]. split; [by_evaluation |].
  intros i j o w Hi Hj.
  repeat (destruct i as [| i]; [injection Hi as <- | simpl in Hi]);
    try discriminate Hi;
    (repeat (destruct j as [| j]; [injection Hj as <- | simpl in Hj]));
    try discriminate Hj; by_evaluation.
Qed.

End Partitioned.

End Assembly.

(** C8, as stated, fails: it has a flag or a call that enables the second
    table.  [create_controller] takes no argument, and whatever the
    partitioner, the defuzzification method and the store it starts from, no
    run of it registers a table with the three rows of the second table. *)
Lemma no_run_registers_position_table :
  ~ (exists (MF DF : Type) (flat_saw : R * R -> nat -> list MF) (defuzzy : DF)
            (st0 st : Store MF DF) (c : PendulumController MF)
            (t : RuleTable MF),
       create_controller flat_saw defuzzy st0 = Some (c, st) /\
       t ∈ tables c /\
       length (tbl_cells t) = length table_names_2).
Proof.
  intros (MF & DF & flat_saw & defuzzy & st0 & st & c & t & Hrun & Hin & Hlen).
  destruct (create_controller_registers flat_saw defuzzy st0 st c Hrun)
    as (t' & Hc & _ & _ & Hcells).
  rewrite Hc in Hin. apply list_elem_of_singleton in Hin. subst t'.
  rewrite Hcells in Hlen. discriminate Hlen.
Qed.

Lemma flat_saw_model_length (rng : R * R) (n : nat) :
  length (flat_saw_model rng n) = n.
Proof. unfold flat_saw_model. now rewrite length_map, length_seq. Qed.

Lemma primary_table_total_witness :
  (forall (rng : R * R) (n : nat), length (flat_saw_model rng n) = n) /\
  exists (c : PendulumController (R * R * nat * nat))
         (st : Store (R * R * nat * nat) unit)
         (t : RuleTable (R * R * nat * nat)),
    PC flat_saw_model tt = Some (c, st) /\ tables c = [t] /\
    length (tbl_rows t) = 7 /\ length (tbl_cols t) = 5 /\
    length (tbl_cells t) = 7 /\
    Forall (λ row, length row = 5) (tbl_cells t) /\
    rule_count c = 35 /\
    map Some (tbl_rows t) = map (adjective_of st "O") O_names /\
    map Some (tbl_cols t) = map (adjective_of st "w") w_names /\
    map (map Some) (tbl_cells t) = map (map (adjective_of st "F")) table_names /\
    (forall (i j : nat) (o w : string),
       O_names !! i = Some o -> w_names !! j = Some w ->
       exists f : string,
         (table_names !! i ≫= (.!! j)) = Some f /\
         f ∈ F_names /\
         rule st t o w = Some f) /\
    rule st t "Ovbn" "wbn" = Some "Fvvbn" /\
    rule st t "Ovbp" "wbp" = Some "Fvvbp" /\
    rule st t "Oz" "wz" = Some "Fz".
Proof.
  split.
  - exact flat_saw_model_length.
  - exact (primary_table_total flat_saw_model tt flat_saw_model_length).
Defined.

Lemma five_linguistic_variables_witness :
  (forall (rng : R * R) (n : nat), length (flat_saw_model rng n) = n) /\
  exists (c : PendulumController (R * R * nat * nat))
         (st : Store (R * R * nat * nat) unit),
    PC flat_saw_model tt = Some (c, st) /\
    dom (variables c) = list_to_set ["O"; "w"; "F"; "x"; "v"] /\
    bound_in_order st "O" (InputVariable Plain)
      ["Ovbn"; "Obn"; "Osn"; "Oz"; "Osp"; "Obp"; "Ovbp"]
      (flat_saw_model (-3 * PI / 8, 3 * PI / 8)%R 7) 7 /\
    bound_in_order st "w" (InputVariable Plain)
      ["wbn"; "wsn"; "wz"; "wsp"; "wbp"]
      (flat_saw_model (-3 * PI, 3 * PI)%R 5) 5 /\
    bound_in_order st "F" (OutputVariable tt)
      ["Fvvbn"; "Fvbn"; "Fbn"; "Fsn"; "Fz"; "Fsp"; "Fbp"; "Fvbp"; "Fvvbp"]
      (flat_saw_model (-100, 100)%R 9) 9 /\
    bound_in_order st "x" (InputVariable Plain)
      ["xn"; "xz"; "xp"] (flat_saw_model (-10, 10)%R 3) 3 /\
    bound_in_order st "v" (InputVariable Plain)
      ["vn"; "vz"; "vp"] (flat_saw_model (-6, 6)%R 3) 3.
Proof.
  split.
  - exact flat_saw_model_length.
  - exact (five_linguistic_variables flat_saw_model tt flat_saw_model_length).
Defined.

Lemma position_table_not_registered_witness :
  (forall (rng : R * R) (n : nat), length (flat_saw_model rng n) = n) /\
  (exists (c : PendulumController (R * R * nat * nat))
          (st : Store (R * R * nat * nat) unit)
          (t : RuleTable (R * R * nat * nat)),
     PC flat_saw_model tt = Some (c, st) /\ tables c = [t] /\
     length (tbl_cells t) = 7 /\ rule_count c = 35 /\
     exists (rows cols : list (Adjective (R * R * nat * nat)))
            (cells : list (list (Adjective (R * R * nat * nat)))),
       mapM (lookup_adjective "x") x_names st = Some (rows, st) /\
       mapM (lookup_adjective "v") v_names st = Some (cols, st) /\
       mapM (mapM (lookup_adjective "F")) table_names_2 st = Some (cells, st) /\
       length rows = 3 /\ length cols = 3 /\
       Forall (λ row, length row = 3) cells /\
       mkTable rows cols cells ∉ tables c) /\
  length table_names_2 = 3 /\
  Forall (λ row, length row = 3 /\ Forall (λ f, f ∈ F_names) row) table_names_2 /\
  (forall (st0 st : Store (R * R * nat * nat) unit)
          (c : PendulumController (R * R * nat * nat)),
     create_controller flat_saw_model tt st0 = Some (c, st) ->
     exists t : RuleTable (R * R * nat * nat),
       tables c = [t] /\ length (tbl_cells t) = 7).
Proof.
  split.
  - exact flat_saw_model_length.
  - exact (position_table_not_registered flat_saw_model tt flat_saw_model_length).
Defined.

Lemma rule_table_index_law_witness :
  (forall (rng : R * R) (n : nat), length (flat_saw_model rng n) = n) /\
  exists (c : PendulumController (R * R * nat * nat))
         (st : Store (R * R * nat * nat) unit)
         (t : RuleTable (R * R * nat * nat)),
    PC flat_saw_model tt = Some (c, st) /\ tables c = [t] /\
    forall (i j : nat) (o w : string),
      O_names !! i = Some o -> w_names !! j = Some w ->
      rule st t o w = F_names !! (Nat.min 8 (Nat.pred (i + j))).
Proof.
  split.
  - exact flat_saw_model_length.
  - exact (rule_table_index_law flat_saw_model tt flat_saw_model_length).
Defined.

(** ** Runs of [create_controller] from any store, with any partitioner *)

Section Runs.

Context {MF DF : Type}.
Variable flat_saw : R * R -> nat -> list MF.
Variable defuzzy : DF.

Abbreviation store := (Store MF DF).
Abbreviation create_controller := (Controller.create_controller flat_saw defuzzy).

Lemma dict_comprehension_run (pairs : list (string * MF)) :
  forall (d : gmap string (Adjective MF)) (h : gmap nat (LinguisticVariable MF DF))
         (n k : nat) (c : PendulumController MF),
    dict_comprehension pairs d (mkStore h n k c)
    = Some (fill k pairs d, mkStore h n (k + length pairs) c).
Proof.
  induction pairs as [| [name f] rest IH]; intros d h n k c; simpl.
  - unfold ret. now rewrite Nat.add_0_r.
  - unfold bind. simpl. rewrite IH. do 3 f_equal. lia.
Qed.

Lemma fill_lookup_notin (pairs : list (string * MF)) :
  forall (base : nat) (d : gmap string (Adjective MF)) (name : string),
    name ∉ pairs.*1 -> fill base pairs d !! name = d !! name.
Proof.
  induction pairs as [| [n f] rest IH]; intros base d name Hn; simpl; [reflexivity |].
  simpl in Hn. apply not_elem_of_cons in Hn as [Hne Hn].
  rewrite IH by exact Hn. now apply lookup_insert_ne.
Qed.

Lemma fill_lookup_in (pairs : list (string * MF)) :
  forall (base : nat) (d : gmap string (Adjective MF)) (i : nat) (name : string)
         (f : MF),
    NoDup pairs.*1 -> pairs !! i = Some (name, f) ->
    fill base pairs d !! name = Some (mkAdjective (base + i) f).
Proof.
  induction pairs as [| [n g] rest IH]; intros base d i name f Hnd Hi;
    [discriminate Hi |].
  simpl in Hnd. apply NoDup_cons in Hnd as [Hnotin Hnd].
  destruct i as [| i]; simpl in *.
  - injection Hi as -> ->. rewrite fill_lookup_notin by exact Hnotin.
    rewrite lookup_insert_eq. now rewrite Nat.add_0_r.
  - rewrite (IH _ _ i name f Hnd Hi). do 2 f_equal. lia.
Qed.

Lemma fst_zip_take (names : list string) :
  forall mfs : list MF, (zip names mfs).*1 = take (length mfs) names.
Proof.
  induction names as [| n names IH]; intros [| f mfs]; simpl; try reflexivity.
  now rewrite IH.
Qed.

Lemma NoDup_fst_zip (names : list string) (mfs : list MF) :
  NoDup names -> NoDup (zip names mfs).*1.
Proof.
  intros Hnd. rewrite fst_zip_take.
  eapply sublist_NoDup; [exact Hnd | apply sublist_take].
Qed.

(** A comprehension over [zip names mfs], started on the empty dictionary,
    binds the [i]-th name to the [i]-th membership function, under identity
    [base + i], and binds nothing else. *)
Lemma fill_zip_lookup (names : list string) (mfs : list MF) (base i : nat)
    (name : string) :
  NoDup names -> names !! i = Some name ->
  fill base (zip names mfs) ∅ !! name = mkAdjective (base + i) <$> mfs !! i.
Proof.
  intros Hnd Hi. destruct (mfs !! i) as [f |] eqn:Hf; simpl.
  - apply fill_lookup_in; [now apply NoDup_fst_zip |].
    apply lookup_zip_with_Some. now exists name, f.
  - rewrite fill_lookup_notin; [apply lookup_empty |].
    rewrite fst_zip_take. intros Hin.
    apply list_elem_of_lookup in Hin as [j Hj].
    apply lookup_take_Some in Hj as [Hj Hlt].
    pose proof (NoDup_lookup _ _ _ _ Hnd Hi Hj) as ->.
    apply lookup_ge_None in Hf. lia.
Qed.

Lemma fill_zip_lookup_other (names : list string) (mfs : list MF) (base : nat)
    (name : string) :
  name ∉ names -> fill base (zip names mfs) ∅ !! name = None.
Proof.
  intros Hn. rewrite fill_lookup_notin; [apply lookup_empty |].
  rewrite fst_zip_take. intros Hin. apply Hn.
  exact (subseteq_take _ _ _ Hin).
Qed.

Lemma lookups_length (d : gmap string (Adjective MF)) (names : list string) :
  forall l, lookups d names = Some l -> length l = length names.
Proof.
  induction names as [| n names IH]; intros l H; simpl in H.
  - injection H as <-. reflexivity.
  - destruct (d !! n); [| discriminate].
    destruct (lookups d names) as [l' |]; [| discriminate].
    injection H as <-. simpl. f_equal. now apply IH.
Qed.

Lemma lookups_is_Some (d : gmap string (Adjective MF)) (names : list string) :
  is_Some (lookups d names) <-> Forall (fun name => is_Some (d !! name)) names.
Proof.
  induction names as [| n names IH]; simpl.
  - split; [constructor | eexists; reflexivity].
  - split.
    + intros [l H]. destruct (d !! n) as [a |] eqn:Ha; [| discriminate].
      destruct (lookups d names) as [l' |]; [| discriminate].
      constructor; [eexists; exact Ha | apply IH; eexists; reflexivity].
    + intros H. apply Forall_cons in H as [[a Ha] H]. apply IH in H as [l Hl].
      rewrite Ha, Hl. eexists; reflexivity.
Qed.

Lemma lookups_lookup (d : gmap string (Adjective MF)) (names : list string) :
  forall l, lookups d names = Some l ->
  forall i name, names !! i = Some name -> l !! i = d !! name.
Proof.
  induction names as [| n names IH]; intros l H i name Hi; [discriminate Hi |].
  simpl in H. destruct (d !! n) as [a |] eqn:Ha; [| discriminate].
  destruct (lookups d names) as [l' |] eqn:Hl; [| discriminate].
  injection H as <-. destruct i as [| i]; simpl in *.
  - injection Hi as <-. now rewrite Ha.
  - now apply IH.
Qed.

(** A list comprehension of dictionary reads on a store whose reads are
    those of [d]. *)
Lemma mapM_lookup_adjective (var : string) (d : gmap string (Adjective MF))
    (st : store) (names : list string) :
  (forall name, lookup_adjective var name st
                = match d !! name with Some a => Some (a, st) | None => None end) ->
  mapM (lookup_adjective var) names st
  = match lookups d names with Some l => Some (l, st) | None => None end.
Proof.
  intros Hf. induction names as [| n names IH]; simpl; [reflexivity |].
  unfold bind at 1. rewrite Hf. destruct (d !! n) as [a |]; [| reflexivity].
  unfold bind at 1. rewrite IH. destruct (lookups d names); reflexivity.
Qed.

Lemma mapM_grid_lookup_adjective (var : string) (d : gmap string (Adjective MF))
    (st : store) (grid : list (list string)) :
  (forall name, lookup_adjective var name st
                = match d !! name with Some a => Some (a, st) | None => None end) ->
  mapM (mapM (lookup_adjective var)) grid st
  = match grid_lookups d grid with Some l => Some (l, st) | None => None end.
Proof.
  intros Hf. induction grid as [| row grid IH]; simpl; [reflexivity |].
  unfold bind at 1. rewrite (mapM_lookup_adjective var d st row Hf).
  destruct (lookups d row) as [l |]; [| reflexivity].
  unfold bind at 1. rewrite IH. destruct (grid_lookups d grid); reflexivity.
Qed.

Abbreviation mfs_O := (flat_saw (-3 * PI / 8, 3 * PI / 8)%R 7).
Abbreviation mfs_w := (flat_saw (-3 * PI, 3 * PI)%R 5).
Abbreviation mfs_F := (flat_saw (-100, 100)%R 9).
Abbreviation mfs_x := (flat_saw (-10, 10)%R 3).
Abbreviation mfs_v := (flat_saw (-6, 6)%R 3).

Lemma lookup_adjective_at (st : store) (var : string) (loc : nat)
    (V : LinguisticVariable MF DF) :
  variables (controller st) !! var = Some loc -> heap st !! loc = Some V ->
  forall name : string,
    lookup_adjective var name st
    = match adjectives V !! name with Some a => Some (a, st) | None => None end.
Proof.
  intros Hv Hh name. unfold lookup_adjective. now rewrite Hv, Hh.
Qed.

Lemma grid_lookups_length (d : gmap string (Adjective MF)) (grid : list (list string)) :
  forall ls, grid_lookups d grid = Some ls ->
             Forall2 (fun l row => length l = length row) ls grid.
Proof.
  induction grid as [| row grid IH]; intros ls H; simpl in H.
  - injection H as <-. constructor.
  - destruct (lookups d row) as [l |] eqn:Hl; [| discriminate].
    destruct (grid_lookups d grid) as [ls' |]; [| discriminate].
    injection H as <-. constructor; [now apply lookups_length in Hl | now apply IH].
Qed.

Lemma add_table_ok (rows cols : list (Adjective MF))
    (cells : list (list (Adjective MF))) (st : store) :
  length cells = length rows ->
  Forall (fun row => length row = length cols) cells ->
  add_table rows cols cells st
  = Some (tt, mkStore (heap st) (next_loc st) (next_adj st)
                      (mkController (variables (controller st))
                                    (tables (controller st)
                                     ++ [mkTable rows cols cells]))).
Proof.
  intros Hlen Hall. unfold add_table.
  rewrite (bool_decide_eq_true_2 _ Hlen). simpl. clear Hlen.
  assert (Hf : forallb (fun row => bool_decide (length row = length cols)) cells = true).
  { induction Hall as [| row cells Hrow _ IH]; simpl; [reflexivity |].
    rewrite (bool_decide_eq_true_2 _ Hrow). exact IH. }
  now rewrite Hf.
Qed.

Lemma add_table_fails (rows cols : list (Adjective MF))
    (cells : list (list (Adjective MF))) (st : store) :
  length cells <> length rows -> add_table rows cols cells st = None.
Proof.
  intros Hlen. unfold add_table.
  now rewrite (bool_decide_eq_false_2 _ Hlen).
Qed.

Ltac reduce_run :=
  cbn [bind new_controller new_variable set_variable var_class
       heap next_loc next_adj controller variables tables].

Ltac run_comprehension :=
  unfold bind at 1; rewrite dict_comprehension_run; cbv beta iota;
  unfold bind at 1, set_adjectives at 1;
  cbn [heap next_loc next_adj controller];
  rewrite lookup_insert_eq; cbv beta iota; cbn [var_class];
  rewrite insert_insert_eq; reduce_run.

Ltac run_lookups var loc :=
  unfold bind at 1;
  match goal with
  | |- context [mapM (lookup_adjective var) ?names ?st] =>
      rewrite (mapM_lookup_adjective var _ st names
                 (lookup_adjective_at st var loc _
                    ltac:(cbn [controller variables];
                          rewrite ?lookup_insert_ne by done; apply lookup_insert_eq)
                    ltac:(cbn [heap];
                          rewrite ?lookup_insert_ne by lia; apply lookup_insert_eq)))
  end; cbn [adjectives].

Lemma table_names_rows : Forall (fun row : list string => length row = 5) table_names.
Proof. repeat constructor. Qed.

(** The run of [create_controller] in closed form: it fails exactly when one
    of the three comprehensions of dictionary reads misses a name, and
    otherwise allocates five variable objects and registers one table. *)
Lemma create_controller_run (h : gmap nat (LinguisticVariable MF DF)) (n k : nat)
    (c0 : PendulumController MF) :
  let pO := zip O_names mfs_O in
  let pw := zip w_names mfs_w in
  let pF := zip F_names mfs_F in
  let px := zip x_names mfs_x in
  let pv := zip v_names mfs_v in
  let dO := fill k pO ∅ in
  let dw := fill (k + length pO) pw ∅ in
  let dF := fill (k + length pO + length pw) pF ∅ in
  let dx := fill (k + length pO + length pw + length pF) px ∅ in
  let dv := fill (k + length pO + length pw + length pF + length px) pv ∅ in
  create_controller (mkStore h n k c0)
  = match lookups dO O_names, lookups dw w_names, grid_lookups dF table_names with
    | Some rows, Some cols, Some cells =>
        let c := mkController
                   (<["v" := S (S (S (S n)))]>
                      (<["x" := S (S (S n))]>
                         (<["F" := S (S n)]> (<["w" := S n]> (<["O" := n]> ∅)))))
                   [mkTable rows cols cells] in
        Some (c,
              mkStore
                (<[S (S (S (S n))) := mkVariable (InputVariable Plain) dv]>
                   (<[S (S (S n)) := mkVariable (InputVariable Plain) dx]>
                      (<[S (S n) := mkVariable (OutputVariable defuzzy) dF]>
                         (<[S n := mkVariable (InputVariable Plain) dw]>
                            (<[n := mkVariable (InputVariable Plain) dO]> h)))))
                (S (S (S (S (S n)))))
                (k + length pO + length pw + length pF + length px + length pv)
                c)
    | _, _, _ => None
    end.
Proof.
  intros pO pw pF px pv dO dw dF dx dv.
  unfold Controller.create_controller.
  reduce_run. run_comprehension. run_comprehension. run_comprehension.
  fold pO pw pF dO dw dF.
  run_lookups "O" n. fold dO.
  destruct (lookups dO O_names) as [rows |] eqn:Hrows; [| reflexivity].
  run_lookups "w" (S n). fold dw.
  destruct (lookups dw w_names) as [cols |] eqn:Hcols; [| reflexivity].
  unfold bind at 1.
  match goal with
  | |- context [mapM (mapM (lookup_adjective "F")) table_names ?st] =>
      rewrite (mapM_grid_lookup_adjective "F" dF st table_names
                 (lookup_adjective_at st "F" (S (S n)) _
                    ltac:(cbn [controller variables]; apply lookup_insert_eq)
                    ltac:(cbn [heap]; apply lookup_insert_eq)))
  end.
  destruct (grid_lookups dF table_names) as [cells |] eqn:Hcells; [| reflexivity].
  unfold bind at 1. rewrite add_table_ok; cycle 1.
  { apply grid_lookups_length, Forall2_length in Hcells.
    apply lookups_length in Hrows. rewrite Hcells, Hrows. reflexivity. }
  { apply grid_lookups_length in Hcells. apply lookups_length in Hcols.
    pose proof table_names_rows as Ht. revert Ht.
    induction Hcells as [| l row ls grid Hl _ IH]; intros Ht; constructor.
    - apply Forall_cons in Ht as [Hrow _]. rewrite Hl, Hrow, Hcols. reflexivity.
    - apply IH. now apply Forall_cons in Ht as [_ Ht]. }
  cbv beta iota. reduce_run. cbn [app].
  run_comprehension. run_comprehension. fold px pv dx dv.
  reflexivity.
Qed.

(** What a successful run returns, read backwards. *)
Lemma create_controller_inv (st0 st : store) (c : PendulumController MF) :
  create_controller st0 = Some (c, st) ->
  let n := next_loc st0 in
  let k := next_adj st0 in
  let pO := zip O_names mfs_O in
  let pw := zip w_names mfs_w in
  let pF := zip F_names mfs_F in
  let px := zip x_names mfs_x in
  let pv := zip v_names mfs_v in
  let dO := fill k pO ∅ in
  let dw := fill (k + length pO) pw ∅ in
  let dF := fill (k + length pO + length pw) pF ∅ in
  let dx := fill (k + length pO + length pw + length pF) px ∅ in
  let dv := fill (k + length pO + length pw + length pF + length px) pv ∅ in
  exists (rows cols : list (Adjective MF)) (cells : list (list (Adjective MF))),
    lookups dO O_names = Some rows /\
    lookups dw w_names = Some cols /\
    grid_lookups dF table_names = Some cells /\
    c = mkController
          (<["v" := S (S (S (S n)))]>
             (<["x" := S (S (S n))]>
                (<["F" := S (S n)]> (<["w" := S n]> (<["O" := n]> ∅)))))
          [mkTable rows cols cells] /\
    st = mkStore
           (<[S (S (S (S n))) := mkVariable (InputVariable Plain) dv]>
              (<[S (S (S n)) := mkVariable (InputVariable Plain) dx]>
                 (<[S (S n) := mkVariable (OutputVariable defuzzy) dF]>
                    (<[S n := mkVariable (InputVariable Plain) dw]>
                       (<[n := mkVariable (InputVariable Plain) dO]> (heap st0))))))
           (S (S (S (S (S n)))))
           (k + length pO + length pw + length pF + length px + length pv)
           c.
Proof.
  destruct st0 as [h n k c0]. cbn [next_loc next_adj heap].
  rewrite create_controller_run. cbv zeta.
  destruct (lookups _ O_names) as [rows |]; [| discriminate].
  destruct (lookups _ w_names) as [cols |]; [| discriminate].
  destruct (grid_lookups _ table_names) as [cells |]; [| discriminate].
  intros [= <- <-]. exists rows, cols, cells. repeat split; reflexivity.
Qed.

Lemma fill_zip_is_Some (names : list string) (mfs : list MF) (base i : nat)
    (name : string) :
  NoDup names -> names !! i = Some name ->
  is_Some (fill base (zip names mfs) ∅ !! name) <-> i < length mfs.
Proof.
  intros Hnd Hi. rewrite (fill_zip_lookup names mfs base i name Hnd Hi).
  rewrite fmap_is_Some. apply lookup_lt_is_Some.
Qed.

(** Every name of [names] is bound exactly when the partition is at least as
    long as the list of names. *)
Lemma lookups_fill_is_Some (names : list string) (mfs : list MF) (base : nat) :
  NoDup names ->
  is_Some (lookups (fill base (zip names mfs) ∅) names)
  <-> length names <= length mfs.
Proof.
  intros Hnd. rewrite lookups_is_Some, Forall_lookup. split.
  - intros H. destruct (decide (length names = 0)) as [-> | Hne]; [lia |].
    destruct (lookup_lt_is_Some_2 names (pred (length names))) as [name Hn]; [lia |].
    specialize (H _ _ Hn).
    apply (fill_zip_is_Some names mfs base _ name Hnd Hn) in H. lia.
  - intros Hlen i name Hi.
    apply (fill_zip_is_Some names mfs base i name Hnd Hi).
    apply lookup_lt_Some in Hi. lia.
Qed.

Lemma grid_lookups_is_Some (d : gmap string (Adjective MF)) (grid : list (list string)) :
  is_Some (grid_lookups d grid)
  <-> Forall (fun row => is_Some (lookups d row)) grid.
Proof.
  induction grid as [| row grid IH]; cbn [grid_lookups].
  - split; [constructor | eexists; reflexivity].
  - split.
    + intros [l H]. destruct (lookups d row) as [r |] eqn:Hr; [| discriminate].
      destruct (grid_lookups d grid) as [l' |]; [| discriminate].
      constructor; [exists r; exact Hr | apply IH; eexists; reflexivity].
    + intros H. apply Forall_cons in H as [[r Hr] H]. apply IH in H as [l Hl].
      rewrite Hr, Hl. eexists; reflexivity.
Qed.

Lemma names_NoDup :
  NoDup O_names /\ NoDup w_names /\ NoDup F_names /\ NoDup x_names /\ NoDup v_names.
Proof. repeat split; compute_done. Qed.

(** The table uses names of [F_names] only, and uses the last of them. *)
Lemma table_names_in_F_names :
  Forall (Forall (fun name => name ∈ F_names)) table_names.
Proof.
  repeat constructor;
    solve [repeat (apply list_elem_of_here || apply list_elem_of_further)].
Qed.

Lemma grid_lookups_fill_is_Some (mfs : list MF) (base : nat) :
  is_Some (grid_lookups (fill base (zip F_names mfs) ∅) table_names)
  <-> 9 <= length mfs.
Proof.
  destruct names_NoDup as (_ & _ & HF & _).
  rewrite grid_lookups_is_Some. split.
  - intros H. rewrite Forall_lookup in H.
    assert (Hrow : table_names !! 6 = Some ["Fsp"; "Fbp"; "Fvbp"; "Fvvbp"; "Fvvbp"])
      by reflexivity.
    specialize (H _ _ Hrow). apply lookups_is_Some in H.
    rewrite Forall_lookup in H.
    assert (Hcell : ["Fsp"; "Fbp"; "Fvbp"; "Fvvbp"; "Fvvbp"] !! 3 = Some "Fvvbp")
      by reflexivity.
    specialize (H _ _ Hcell).
    assert (Hidx : F_names !! 8 = Some "Fvvbp") by reflexivity.
    apply (fill_zip_is_Some F_names mfs base 8 "Fvvbp" HF Hidx) in H. lia.
  - intros Hlen. eapply Forall_impl; [apply table_names_in_F_names |].
    intros row Hrow. apply lookups_is_Some.
    eapply Forall_impl; [exact Hrow |]. intros name Hin. simpl in Hin.
    apply list_elem_of_lookup in Hin as [i Hi].
    apply (fill_zip_is_Some F_names mfs base i name HF Hi).
    apply lookup_lt_Some in Hi. change (length F_names) with 9 in Hi. lia.
Qed.

Lemma create_controller_defined_iff (st0 : store) :
  is_Some (create_controller st0)
  <-> is_Some (lookups (fill (next_adj st0) (zip O_names mfs_O) ∅) O_names) /\
      is_Some (lookups (fill (next_adj st0 + length (zip O_names mfs_O))
                          (zip w_names mfs_w) ∅) w_names) /\
      is_Some (grid_lookups
                 (fill (next_adj st0 + length (zip O_names mfs_O)
                        + length (zip w_names mfs_w)) (zip F_names mfs_F) ∅)
                 table_names).
Proof.
  destruct st0 as [h n k c0]. rewrite create_controller_run. cbv zeta.
  cbn [next_adj].
  destruct (lookups _ O_names) as [rows |];
    [| split; [intros [? [=]] | intros ([? [=]] & _)]].
  destruct (lookups _ w_names) as [cols |];
    [| split; [intros [? [=]] | intros (_ & [? [=]] & _)]].
  destruct (grid_lookups _ table_names) as [cells |];
    [| split; [intros [? [=]] | intros (_ & _ & [? [=]])]].
  split; [intros _; repeat split; eexists; reflexivity | intros _; eexists; reflexivity].
Qed.

Lemma create_controller_defined (st0 : store) :
  7 <= length mfs_O -> 5 <= length mfs_w -> 9 <= length mfs_F ->
  is_Some (create_controller st0).
Proof.
  intros HO Hw HF. destruct names_NoDup as (HdO & Hdw & _).
  apply create_controller_defined_iff. split; [| split].
  - now apply lookups_fill_is_Some.
  - now apply lookups_fill_is_Some.
  - now apply grid_lookups_fill_is_Some.
Qed.

(** A run of [create_controller] succeeds exactly when the partitions asked
    for the angle, the angular velocity and the force have at least 7, 5 and
    9 members: a shorter one leaves a name of the rule table unbound and the
    read of it fails.  The partitions of x and v may have any length. *)
Theorem create_controller_succeeds_iff (st0 : store) :
  is_Some (create_controller st0)
  <-> 7 <= length mfs_O /\ 5 <= length mfs_w /\ 9 <= length mfs_F.
Proof.
  destruct names_NoDup as (HO & Hw & _).
  rewrite create_controller_defined_iff.
  rewrite (lookups_fill_is_Some O_names mfs_O _ HO).
  rewrite (lookups_fill_is_Some w_names mfs_w _ Hw).
  rewrite grid_lookups_fill_is_Some. reflexivity.
Qed.

(** Reading an adjective off a store of the shape a run leaves. *)
Lemma adjective_of_assembled (h : gmap nat (LinguisticVariable MF DF)) (n k : nat)
    (tbls : list (RuleTable MF)) (cO cw cF cx cv : VariableClass DF)
    (dO dw dF dx dv : gmap string (Adjective MF)) (var name : string) :
  adjective_of
    (mkStore
       (<[S (S (S (S n))) := mkVariable cv dv]>
          (<[S (S (S n)) := mkVariable cx dx]>
             (<[S (S n) := mkVariable cF dF]>
                (<[S n := mkVariable cw dw]> (<[n := mkVariable cO dO]> h)))))
       (S (S (S (S (S n))))) k
       (mkController
          (<["v" := S (S (S (S n)))]>
             (<["x" := S (S (S n))]>
                (<["F" := S (S n)]> (<["w" := S n]> (<["O" := n]> ∅)))))
          tbls))
    var name
  = if decide (var = "O") then dO !! name
    else if decide (var = "w") then dw !! name
    else if decide (var = "F") then dF !! name
    else if decide (var = "x") then dx !! name
    else if decide (var = "v") then dv !! name
    else None.
Proof.
  unfold adjective_of, variable_of. cbn [controller variables heap].
  repeat case_decide; subst;
    rewrite ?lookup_insert_ne by done;
    rewrite ?lookup_insert_eq, ?lookup_empty; cbn [mbind option_bind];
    rewrite ?lookup_insert_ne by lia;
    rewrite ?lookup_insert_eq; reflexivity.
Qed.

Lemma fill_zip_lookup_Some (names : list string) (mfs : list MF) (base : nat)
    (name : string) (a : Adjective MF) :
  NoDup names ->
  fill base (zip names mfs) ∅ !! name = Some a ->
  exists i : nat,
    names !! i = Some name /\ mfs !! i = Some (adj_set a) /\
    adj_id a = base + i /\ i < length (zip names mfs).
Proof.
  intros Hnd Ha. destruct (decide (name ∈ names)) as [Hin | Hout].
  - apply list_elem_of_lookup in Hin as [i Hi]. exists i.
    rewrite (fill_zip_lookup names mfs base i name Hnd Hi) in Ha.
    destruct (mfs !! i) as [f |] eqn:Hf; [| discriminate].
    injection Ha as <-. cbn [adj_set adj_id]. repeat split; try assumption.
    rewrite length_zip. apply lookup_lt_Some in Hi, Hf. lia.
  - rewrite (fill_zip_lookup_other names mfs base name Hout) in Ha. discriminate.
Qed.

(** A run never touches the variable objects that existed before it: it
    allocates five fresh ones, and the controller it returns holds exactly
    the names O, w, F, x and v, each referring to one of the five, no two to
    the same. *)
Theorem create_controller_allocates_fresh (st0 st : store)
    (c : PendulumController MF) :
  create_controller st0 = Some (c, st) ->
  controller st = c /\
  next_loc st = next_loc st0 + 5 /\
  (forall loc : nat, loc < next_loc st0 -> heap st !! loc = heap st0 !! loc) /\
  (forall var : string,
     is_Some (variables c !! var) <-> var ∈ ["O"; "w"; "F"; "x"; "v"]) /\
  (forall (var : string) (loc : nat),
     variables c !! var = Some loc ->
     next_loc st0 <= loc < next_loc st /\ is_Some (heap st !! loc)) /\
  (forall (var var' : string) (loc : nat),
     variables c !! var = Some loc -> variables c !! var' = Some loc ->
     var = var').
Proof.
  intros Hrun.
  destruct (create_controller_inv st0 st c Hrun)
    as (rows & cols & cells & _ & _ & _ & -> & ->).
  cbn [controller next_loc heap variables].
  split; [reflexivity |]. split; [lia |]. split; [| split; [| split]].
  - intros loc Hloc. rewrite !lookup_insert_ne by lia. reflexivity.
  - intros var. rewrite !elem_of_cons, elem_of_nil.
    rewrite !lookup_insert_is_Some', lookup_empty.
    pose proof (@is_Some_None nat) as HN. intuition congruence.
  - intros var loc H.
    repeat (apply lookup_insert_Some in H as [[_ <-] | [_ H]];
            [split; [lia |];
             rewrite ?lookup_insert_ne by lia; rewrite lookup_insert_eq;
             eexists; reflexivity |]).
    rewrite lookup_empty in H. discriminate H.
  - intros var var' loc H H'.
    repeat (apply lookup_insert_Some in H as [[<- <-] | [_ H]];
            [repeat (apply lookup_insert_Some in H' as [[<- Hl] | [_ H']];
                     [reflexivity || (exfalso; lia) |]);
             rewrite lookup_empty in H'; discriminate H' |]).
    rewrite lookup_empty in H. discriminate H.
Qed.

(** Whatever the partitioner returns, each variable binds the [i]-th of its
    names to the [i]-th membership function when there is one: a surplus of
    membership functions is ignored, for x and v a shortage leaves the last
    names unbound without any error, and no name outside the five lists is
    bound. *)
Theorem create_controller_binds_prefixes (st0 st : store)
    (c : PendulumController MF) :
  create_controller st0 = Some (c, st) ->
  binds_prefix st "O" O_names mfs_O /\
  binds_prefix st "w" w_names mfs_w /\
  binds_prefix st "F" F_names mfs_F /\
  binds_prefix st "x" x_names mfs_x /\
  binds_prefix st "v" v_names mfs_v /\
  (forall var name : string,
     is_Some (adjective_of st var name) ->
     (var = "O" /\ name ∈ O_names) \/ (var = "w" /\ name ∈ w_names) \/
     (var = "F" /\ name ∈ F_names) \/ (var = "x" /\ name ∈ x_names) \/
     (var = "v" /\ name ∈ v_names)).
Proof.
  intros Hrun.
  destruct (create_controller_inv st0 st c Hrun)
    as (rows & cols & cells & _ & _ & _ & -> & ->).
  destruct names_NoDup as (HO & Hw & HF & Hx & Hv).
  assert (Hprefix : forall (names : list string) (mfs : list MF) (base i : nat)
                           (name : string),
             NoDup names -> names !! i = Some name ->
             adj_set <$> fill base (zip names mfs) ∅ !! name = mfs !! i).
  { intros names mfs base i name Hnd Hi.
    rewrite (fill_zip_lookup names mfs base i name Hnd Hi).
    destruct (mfs !! i); reflexivity. }
  do 5 (split; [intros i name Hi; rewrite adjective_of_assembled;
                repeat (case_decide; try congruence); now apply Hprefix |]).
  intros var name [a Ha]. rewrite adjective_of_assembled in Ha.
  repeat case_decide; subst; try discriminate Ha;
    apply fill_zip_lookup_Some in Ha as (i & Hi & _); try assumption;
    apply list_elem_of_lookup_2 in Hi; tauto.
Qed.

(** Every adjective object a run creates is new and is bound once: its
    identity was not in use before the run, and two bindings with the same
    identity are the same name of the same variable. *)
Theorem adjective_objects_distinct (st0 st : store) (c : PendulumController MF) :
  create_controller st0 = Some (c, st) ->
  (forall (var name : string) (a : Adjective MF),
     adjective_of st var name = Some a ->
     next_adj st0 <= adj_id a < next_adj st) /\
  (forall (var name var' name' : string) (a a' : Adjective MF),
     adjective_of st var name = Some a ->
     adjective_of st var' name' = Some a' ->
     adj_id a = adj_id a' -> var = var' /\ name = name').
Proof.
  intros Hrun.
  destruct (create_controller_inv st0 st c Hrun)
    as (rows & cols & cells & _ & _ & _ & -> & ->).
  destruct names_NoDup as (HO & Hw & HF & Hx & Hv).
  split.
  - intros var name a Ha. rewrite adjective_of_assembled in Ha. cbn [next_adj].
    repeat case_decide; subst; try discriminate Ha;
      apply fill_zip_lookup_Some in Ha as (i & _ & _ & Hid & Hlt);
      try assumption; lia.
  - intros var name var' name' a a' Ha Ha' Hid.
    rewrite adjective_of_assembled in Ha, Ha'.
    repeat case_decide; subst; try discriminate Ha; try discriminate Ha';
      apply fill_zip_lookup_Some in Ha as (i & Hi & _ & Hida & Hlt);
      try assumption;
      apply fill_zip_lookup_Some in Ha' as (i' & Hi' & _ & Hida' & Hlt');
      try assumption;
      try (exfalso; lia);
      (assert (i = i') as -> by lia; split; [reflexivity | congruence]).
Qed.

(** A second run builds a controller of its own: it shares no variable
    object with the controller of the first run and leaves the variable
    objects of the first as they were. *)
Theorem second_run_is_independent (st0 st1 st2 : store)
    (c1 c2 : PendulumController MF) :
  create_controller st0 = Some (c1, st1) ->
  create_controller st1 = Some (c2, st2) ->
  forall (var : string) (loc : nat),
    variables c1 !! var = Some loc ->
    heap st2 !! loc = heap st1 !! loc /\
    (forall var' : string, variables c2 !! var' <> Some loc).
Proof.
  intros Hrun1 Hrun2.
  destruct (create_controller_inv st0 st1 c1 Hrun1)
    as (rows1 & cols1 & cells1 & _ & _ & _ & -> & ->).
  destruct (create_controller_inv _ st2 c2 Hrun2)
    as (rows2 & cols2 & cells2 & _ & _ & _ & -> & ->).
  cbn [next_loc heap variables]. intros var loc H.
  repeat (apply lookup_insert_Some in H as [[_ <-] | [_ H]];
          [split;
           [rewrite !(lookup_insert_ne (<[_ := _]> _)) by lia; reflexivity
           | intros var' H';
             repeat (apply lookup_insert_Some in H' as [[_ Hl] | [_ H']];
                     [lia |]);
             rewrite lookup_empty in H'; discriminate H'] |]).
  rewrite lookup_empty in H. discriminate H.
Qed.

End Runs.

(** The concrete partitioner makes every run succeed. *)
Lemma model_run_defined (st0 : Store (R * R * nat * nat) unit) :
  is_Some (create_controller flat_saw_model tt st0).
Proof.
  apply create_controller_defined; rewrite flat_saw_model_length; lia.
Qed.

Lemma create_controller_allocates_fresh_witness :
  exists (c : PendulumController (R * R * nat * nat))
         (st : Store (R * R * nat * nat) unit),
    create_controller flat_saw_model tt empty_store = Some (c, st) /\
    controller st = c /\
    next_loc st = next_loc (empty_store : Store (R * R * nat * nat) unit) + 5 /\
    (forall loc : nat,
       loc < next_loc (empty_store : Store (R * R * nat * nat) unit) ->
       heap st !! loc
       = heap (empty_store : Store (R * R * nat * nat) unit) !! loc) /\
    (forall var : string,
       is_Some (variables c !! var) <-> var ∈ ["O"; "w"; "F"; "x"; "v"]) /\
    (forall (var : string) (loc : nat),
       variables c !! var = Some loc ->
       next_loc (empty_store : Store (R * R * nat * nat) unit) <= loc < next_loc st /\
       is_Some (heap st !! loc)) /\
    (forall (var var' : string) (loc : nat),
       variables c !! var = Some loc -> variables c !! var' = Some loc ->
       var = var').
Proof.
  destruct (model_run_defined empty_store) as [[c st] E].
  exists c, st. split.
  - exact E.
  - exact (create_controller_allocates_fresh flat_saw_model tt empty_store st c E).
Defined.

Lemma create_controller_binds_prefixes_witness :
  exists (c : PendulumController (R * R * nat * nat))
         (st : Store (R * R * nat * nat) unit),
    create_controller flat_saw_model tt empty_store = Some (c, st) /\
    binds_prefix st "O" O_names (flat_saw_model (-3 * PI / 8, 3 * PI / 8)%R 7) /\
    binds_prefix st "w" w_names (flat_saw_model (-3 * PI, 3 * PI)%R 5) /\
    binds_prefix st "F" F_names (flat_saw_model (-100, 100)%R 9) /\
    binds_prefix st "x" x_names (flat_saw_model (-10, 10)%R 3) /\
    binds_prefix st "v" v_names (flat_saw_model (-6, 6)%R 3) /\
    (forall var name : string,
       is_Some (adjective_of st var name) ->
       (var = "O" /\ name ∈ O_names) \/ (var = "w" /\ name ∈ w_names) \/
       (var = "F" /\ name ∈ F_names) \/ (var = "x" /\ name ∈ x_names) \/
       (var = "v" /\ name ∈ v_names)).
Proof.
  destruct (model_run_defined empty_store) as [[c st] E].
  exists c, st. split.
  - exact E.
  - exact (create_controller_binds_prefixes flat_saw_model tt empty_store st c E).
Defined.

Lemma adjective_objects_distinct_witness :
  exists (c : PendulumController (R * R * nat * nat))
         (st : Store (R * R * nat * nat) unit),
    create_controller flat_saw_model tt empty_store = Some (c, st) /\
    (forall (var name : string) (a : Adjective (R * R * nat * nat)),
       adjective_of st var name = Some a ->
       next_adj (empty_store : Store (R * R * nat * nat) unit) <= adj_id a
       < next_adj st) /\
    (forall (var name var' name' : string) (a a' : Adjective (R * R * nat * nat)),
       adjective_of st var name = Some a ->
       adjective_of st var' name' = Some a' ->
       adj_id a = adj_id a' -> var = var' /\ name = name').
Proof.
  destruct (model_run_defined empty_store) as [[c st] E].
  exists c, st. split.
  - exact E.
  - exact (adjective_objects_distinct flat_saw_model tt empty_store st c E).
Defined.

Lemma second_run_is_independent_witness :
  exists (c1 c2 : PendulumController (R * R * nat * nat))
         (st1 st2 : Store (R * R * nat * nat) unit),
    create_controller flat_saw_model tt empty_store = Some (c1, st1) /\
    create_controller flat_saw_model tt st1 = Some (c2, st2) /\
    forall (var : string) (loc : nat),
      variables c1 !! var = Some loc ->
      heap st2 !! loc = heap st1 !! loc /\
      (forall var' : string, variables c2 !! var' <> Some loc).
Proof.
  destruct (model_run_defined empty_store) as [[c1 st1] E1].
  destruct (model_run_defined st1) as [[c2 st2] E2].
  exists c1, c2, st1, st2. split; [exact E1 |]. split; [exact E2 |].
  exact (second_run_is_independent flat_saw_model tt empty_store st1 st2 c1 c2 E1 E2).
Defined.

End ControllerFacts.
